(** * prime_numbers.py: trial-division primality test and the primes up to 100

    A shallow embedding of [src/prime_numbers.py].  Python integers are [Z],
    Python floats are IEEE-754 binary64 values ([spec_float] with precision
    53 and maximal exponent 1024), exceptions are an explicit result type and
    the interpreter state that a call could touch (standard output) is
    threaded through a small state-and-exception monad.

    [n ** 0.5] converts the integer to a float (correctly rounded, with
    [OverflowError] when the integer is too large) and hands it to the C
    library's [pow].  The accuracy of [pow] is a property of the platform:
    the program is therefore defined over an arbitrary [pow(x, 0.5)], the
    theorems assume only that it rounds the square root faithfully, and the
    correctly rounded IEEE square root is shown to be such a function. *)

From Stdlib Require Import ZArith List Lia Bool String Ascii Znumtheory Sorted.
From Stdlib Require Import DecimalString SpecFloat.
From Stdlib Require Import Zpow_facts.
From Stdlib Require Zmod.ZmodInv.
Import ListNotations.

Local Open Scope Z_scope.

(** ** Exceptions, results and the interpreter monad *)

Inductive exn : Type :=
| OverflowError
| TypeError
| ValueError
| ZeroDivisionError.

Inductive result (A : Type) : Type :=
| Return (a : A)
| Raise (e : exn).

Arguments Return {A} a.
Arguments Raise {A} e.

(** What the program can observe or change outside its local variables:
    the text written so far to standard output (as UTF-8 bytes). *)
Record world : Type := { stdout : string }.

Definition Py (A : Type) : Type := world -> result A * world.

Definition ret {A} (a : A) : Py A := fun w => (Return a, w).

Definition bind {A B} (m : Py A) (k : A -> Py B) : Py B :=
  fun w =>
    match m w with
    | (Return a, w') => k a w'
    | (Raise e, w') => (Raise e, w')
    end.

Definition lift {A} (r : result A) : Py A := fun w => (r, w).

Notation "x <- m ;; k" := (bind m (fun x => k))
  (at level 61, m at next level, right associativity).

(** ** Python numbers that [n ** 0.5] can produce *)

Definition prec : Z := 53.
Definition emax : Z := 1024.

Inductive number : Type :=
| PyFloat (x : spec_float)
| PyComplex.

(** [float(n)] for an [int]: the correctly rounded (ties to even) binary64
    value, or [OverflowError] when it would be infinite. *)
Definition float_of_int (n : Z) : result spec_float :=
  match binary_normalize prec emax n 0 false with
  | S754_infinity _ => Raise OverflowError
  | x => Return x
  end.

(** [int(v)]: truncation toward zero; not defined on complex numbers, NaN
    and the infinities. *)
Definition int_of_number (v : number) : result Z :=
  match v with
  | PyComplex => Raise TypeError
  | PyFloat S754_nan => Raise ValueError
  | PyFloat (S754_infinity _) => Raise OverflowError
  | PyFloat (S754_zero _) => Return 0
  | PyFloat (S754_finite s m e) => Return (cond_Zopp s (Z.shiftl (Zpos m) e))
  end.

(** [n % i] on integers: floor remainder, [ZeroDivisionError] on [i = 0]. *)
Definition py_mod (n i : Z) : result Z :=
  if i =? 0 then Raise ZeroDivisionError else Return (n mod i).

(** [range(start, stop)] as the list of the values it yields. *)
Definition range (start stop : Z) : list Z :=
  map (fun k => start + Z.of_nat k) (seq 0 (Z.to_nat (stop - start))).

(** A [for] loop whose body may [return]: [Some a] leaves the loop (and the
    function) with [a], [None] goes on with the next item. *)
Fixpoint for_return {A} (l : list Z) (body : Z -> Py (option A))
  : Py (option A) :=
  match l with
  | [] => ret None
  | i :: l' =>
      o <- body i ;;
      match o with
      | Some a => ret (Some a)
      | None => for_return l' body
      end
  end.

(** A list comprehension [[n for n in l if cond(n)]]. *)
Fixpoint comprehension_if (cond : Z -> Py bool) (l : list Z) : Py (list Z) :=
  match l with
  | [] => ret []
  | n :: l' =>
      b <- cond n ;;
      rest <- comprehension_if cond l' ;;
      ret (if b then n :: rest else rest)
  end.

(** [print(s)]: the text and a newline are appended to standard output. *)
Definition print (s : string) : Py unit :=
  fun w => (Return tt, {| stdout := stdout w ++ s ++ String "010" EmptyString |}).

(** [repr] of an [int] and of a list of them, as [str(primes)] gives it. *)
Definition repr_int (z : Z) : string := NilZero.string_of_int (Z.to_int z).

Fixpoint join (sep : string) (l : list string) : string :=
  match l with
  | [] => EmptyString
  | [s] => s
  | s :: l' => s ++ sep ++ join sep l'
  end.

Definition repr_list (l : list Z) : string :=
  "[" ++ join ", " (map repr_int l) ++ "]".

(** ** The program, over the C library's [pow(x, 0.5)] *)

(** The body of the loop of [is_prime] for the candidate [n]:
    [if n % i == 0: return False]. *)
Definition loop_body (n i : Z) : Py (option bool) :=
  m <- lift (py_mod n i) ;;
  if m =? 0 then ret (Some false) else ret None.

Section Program.

(** The float power [x ** 0.5] is computed by the platform's [pow] for a
    positive finite [x]. *)
Variable libm_pow_half : spec_float -> spec_float.

(** [n ** 0.5] for an [int] n: n is converted to a float; a negative base
    gives a complex number. *)
Definition pow_half (n : Z) : result number :=
  match float_of_int n with
  | Raise e => Raise e
  | Return (S754_finite true _ _) => Return PyComplex
  | Return (S754_zero _) => Return (PyFloat (S754_zero false))
  | Return x => Return (PyFloat (libm_pow_half x))
  end.

Definition is_prime (n : Z) : Py bool :=
  if n <=? 1 then ret false
  else
    x <- lift (pow_half n) ;;
    r <- lift (int_of_number x) ;;
    o <- for_return (range 2 (r + 1)) (loop_body n) ;;
    match o with
    | Some b => ret b
    | None => ret true
    end.

Definition primes : Py (list Z) :=
  comprehension_if is_prime (range 1 101).

Definition main : Py unit :=
  ps <- primes ;;
  print ("Numerele prime până la 100 sunt: " ++ repr_list ps).

End Program.

Definition ieee_sqrt (x : spec_float) : spec_float := SFsqrt prec emax x.

Definition w0 : world := {| stdout := EmptyString |}.

(** ** Dyadic comparisons and the accuracy assumed of [pow]

    A positive finite float [S754_finite false m e] denotes [m * 2^e].  Two
    such values are compared after scaling both to the smaller exponent. *)

Definition dle (m1 e1 m2 e2 : Z) : Prop :=
  m1 * 2 ^ (e1 - Z.min e1 e2) <= m2 * 2 ^ (e2 - Z.min e1 e2).

(** A normal double at least 1: full 53-bit mantissa, exponent in range. *)
Definition normal_ge1 (m : positive) (e : Z) : Prop :=
  Zpos (digits2_pos m) = prec /\ - 52 <= e <= emax - prec.

(** [pw] rounds the square root faithfully on the normal doubles at least 1:
    its result [r] is a double, no double whose square is at most [x] lies
    above [r], and no double whose square is at least [x] lies below [r]
    (so [r] is the square root rounded down or rounded up). *)
Definition faithful_sqrt (pw : spec_float -> spec_float) : Prop :=
  forall mx ex, normal_ge1 mx ex ->
    exists mr er,
      pw (S754_finite false mx ex) = S754_finite false mr er /\
      bounded prec emax mr er = true /\
      (forall mf ef, bounded prec emax mf ef = true ->
         dle (Zpos mf * Zpos mf) (2 * ef) (Zpos mx) ex ->
         dle (Zpos mf) ef (Zpos mr) er) /\
      (forall mf ef, bounded prec emax mf ef = true ->
         dle (Zpos mx) ex (Zpos mf * Zpos mf) (2 * ef) ->
         dle (Zpos mr) er (Zpos mf) ef).

(** ** Pure reading of [is_prime] *)

Definition has_divisor (n : Z) (l : list Z) : bool :=
  existsb (fun i => n mod i =? 0) l.

Definition is_prime_result (pw : spec_float -> spec_float) (n : Z)
  : result bool :=
  if n <=? 1 then Return false
  else
    match pow_half pw n with
    | Raise e => Raise e
    | Return x =>
        match int_of_number x with
        | Raise e => Raise e
        | Return r => Return (negb (has_divisor n (range 2 (r + 1))))
        end
    end.

(** The reference notion of the glossary: an integer greater than 1 with no
    positive divisors other than 1 and itself. *)
Definition prime_number (n : Z) : Prop :=
  1 < n /\ forall d, 0 < d -> (d | n) -> d = 1 \/ d = n.

(** No integer of [[2, floor (sqrt n)]] divides [n]. *)
Definition no_divisor_upto_sqrt (n : Z) : Prop :=
  forall i, 2 <= i <= Z.sqrt n -> n mod i <> 0.

(** Trial division with the mathematical integer square root as bound. *)
Definition trial_division (n : Z) : bool :=
  negb (has_divisor n (range 2 (Z.sqrt n + 1))).

(** ** The loop of [is_prime] as a transition system

    [Looping i]: the range iterator will yield [i] next; [Exited r]: the
    function has left the loop with outcome [r]. *)

Inductive loop_state : Type :=
| Looping (i : Z)
| Exited (r : result bool).

Definition loop_step (n stop : Z) (s : loop_state) : loop_state :=
  match s with
  | Looping i =>
      if i <? stop then
        match py_mod n i with
        | Raise e => Exited (Raise e)
        | Return m => if m =? 0 then Exited (Return false) else Looping (i + 1)
        end
      else Exited (Return true)
  | Exited r => Exited r
  end.

Fixpoint loop_run (fuel : nat) (n stop : Z) (s : loop_state) : loop_state :=
  match fuel with
  | O => s
  | S fuel' => loop_run fuel' n stop (loop_step n stop s)
  end.

(** ** Expected results *)

Definition primes_upto_100 : list Z :=
  [2; 3; 5; 7; 11; 13; 17; 19; 23; 29; 31; 37; 41; 43; 47; 53; 59; 61; 67;
   71; 73; 79; 83; 89; 97].

Definition candidate_is_prime (n : Z) : bool :=
  if n <=? 1 then false else trial_division n.

Definition newline : string := String "010" EmptyString.

Definition output_line : string :=
  "Numerele prime până la 100 sunt: [2, 3, 5, 7, 11, 13, 17, 19, 23, 29, 31, 37, 41, 43, 47, 53, 59, 61, 67, 71, 73, 79, 83, 89, 97]".

(** The square root rounded toward zero: another function that a platform's
    [pow(x, 0.5)] may be. *)
Definition floor_sqrt (x : spec_float) : spec_float :=
  match x with
  | S754_finite false mx ex =>
      let '(q, e, _) := SFsqrt_core_binary prec emax (Zpos mx) ex in
      S754_finite false (Z.to_pos q) e
  | _ => SFsqrt prec emax x
  end.

(** A prime one above a double, [5 * 2^55 + 1], whose square converts to
    the square of that double. *)
Definition proth_p : Z := 5 * 2 ^ 55 + 1.

(** * Properties *)

(** [decide_test b v] replaces the integer comparison [b] by its value [v]
    when linear arithmetic settles it. *)
Ltac decide_test b v :=
  replace b with v
    by (symmetry;
        first [ apply Z.leb_le | apply Z.leb_gt | apply Z.ltb_lt
              | apply Z.ltb_ge | apply Z.eqb_neq | apply Z.eqb_eq ];
        lia).

(** ** Ranges and the loop *)

Lemma in_range (a b i : Z) : In i (range a b) <-> a <= i < b.
Proof.
  unfold range. rewrite in_map_iff. split.
  - intros (k & <- & Hk). apply in_seq in Hk. lia.
  - intros H. exists (Z.to_nat (i - a)). split; [lia|].
    apply in_seq. lia.
Qed.

Lemma range_length (a b : Z) : List.length (range a b) = Z.to_nat (b - a).
Proof. unfold range. now rewrite length_map, length_seq. Qed.

Lemma has_divisor_true (n : Z) (l : list Z) :
  has_divisor n l = true <-> exists i, In i l /\ n mod i = 0.
Proof.
  unfold has_divisor. rewrite existsb_exists.
  split; intros (i & Hi & H); exists i; split; auto; lia.
Qed.

Lemma has_divisor_false (n : Z) (l : list Z) :
  has_divisor n l = false <-> forall i, In i l -> n mod i <> 0.
Proof.
  rewrite <- not_true_iff_false, has_divisor_true. split.
  - intros H i Hi Hm. apply H. now exists i.
  - intros H (i & Hi & Hm). now apply (H i).
Qed.

Section Loop.

Variable n : Z.

Lemma for_return_divisors (l : list Z) (w : world) :
  (forall i, In i l -> i <> 0) ->
  for_return l (loop_body n) w =
    (Return (if has_divisor n l then Some false else None), w).
Proof.
  induction l as [|i l IH]; intros Hnz; [reflexivity|].
  cbn [for_return has_divisor existsb].
  unfold bind at 1. unfold loop_body at 1, bind, lift, py_mod.
  assert (Hi : i <> 0) by (apply Hnz; now left).
  apply Z.eqb_neq in Hi. rewrite Hi.
  destruct (n mod i =? 0); cbn; [reflexivity|].
  apply IH. intros j Hj. apply Hnz. now right.
Qed.

End Loop.

Lemma is_prime_run (pw : spec_float -> spec_float) (n : Z) (w : world) :
  is_prime pw n w = (is_prime_result pw n, w).
Proof.
  unfold is_prime, is_prime_result.
  destruct (n <=? 1); [reflexivity|].
  unfold bind at 1, lift at 1.
  destruct (pow_half pw n) as [x|e]; [|reflexivity].
  unfold bind at 1, lift at 1.
  destruct (int_of_number x) as [r|e]; [|reflexivity].
  unfold bind at 1.
  rewrite for_return_divisors.
  - now destruct (has_divisor n (range 2 (r + 1))).
  - intros i Hi. apply in_range in Hi. lia.
Qed.

(** ** Binary64 rounding *)

Lemma digits2_bounds (p : positive) :
  2 ^ (Zpos (digits2_pos p) - 1) <= Zpos p < 2 ^ Zpos (digits2_pos p).
Proof.
  induction p as [p IH|p IH|]; cbn [digits2_pos];
    [change (Zpos p~1) with (2 * Zpos p + 1)
    |change (Zpos p~0) with (2 * Zpos p)
    |cbn; lia];
    rewrite Pos2Z.inj_succ;
    replace (Z.succ (Zpos (digits2_pos p)) - 1)
      with (Z.succ (Zpos (digits2_pos p) - 1)) by lia;
    rewrite !Z.pow_succ_r by lia; lia.
Qed.

Lemma pow2_pos (k : Z) : 0 <= k -> 0 < 2 ^ k.
Proof. intros. apply Z.pow_pos_nonneg; lia. Qed.

Lemma digits2_unique (p : positive) (d : Z) :
  2 ^ (d - 1) <= Zpos p < 2 ^ d -> Zpos (digits2_pos p) = d.
Proof.
  intros [Hlo Hhi]. pose proof (digits2_bounds p) as [Blo Bhi].
  set (d' := Zpos (digits2_pos p)) in *.
  assert (0 < d).
  { destruct (Z.lt_trichotomy d 0) as [Hd|[Hd|Hd]]; [|subst d; cbn in Hhi; lia|lia].
    rewrite Z.pow_neg_r in Hhi by lia. lia. }
  assert (d' - 1 < d).
  { apply (Z.pow_lt_mono_r_iff 2); lia. }
  assert (d - 1 < d').
  { apply (Z.pow_lt_mono_r_iff 2); lia. }
  lia.
Qed.

Lemma shr_1_nonneg (m : Z) (r s : bool) :
  0 <= m ->
  shr_1 {| shr_m := m; shr_r := r; shr_s := s |} =
  {| shr_m := Z.div2 m; shr_r := Z.odd m; shr_s := r || s |}.
Proof.
  intros Hm. destruct m as [|[p|p|]|p]; try reflexivity. lia.
Qed.

Lemma iter_pos_nat {A} (f : A -> A) (p : positive) (x : A) :
  iter_pos f p x = Nat.iter (Pos.to_nat p) f x.
Proof.
  revert x. induction p as [p IH|p IH|]; intros x; cbn [iter_pos].
  - rewrite !IH, Pos2Nat.inj_xI.
    rewrite <- Nat.iter_add, <- Nat.iter_succ_r. f_equal. lia.
  - rewrite !IH, Pos2Nat.inj_xO, <- Nat.iter_add. f_equal. lia.
  - reflexivity.
Qed.

Lemma iter_shr_1_m (k : nat) (m : Z) (r s : bool) :
  0 <= m ->
  shr_m (Nat.iter k shr_1 {| shr_m := m; shr_r := r; shr_s := s |}) =
  m / 2 ^ Z.of_nat k.
Proof.
  intros Hm. induction k as [|k IH].
  - cbn. now rewrite Z.div_1_r.
  - rewrite Nat.iter_succ.
    destruct (Nat.iter k shr_1 _) as [mk rk sk] eqn:E. cbn in IH. subst mk.
    rewrite shr_1_nonneg by (apply Z.div_pos; [lia|apply pow2_pos; lia]).
    cbn [shr_m]. rewrite Z.div2_div, Z.div_div by (try apply pow2_pos; lia).
    rewrite Nat2Z.inj_succ, Z.pow_succ_r by lia. f_equal. lia.
Qed.

Lemma iter_shr_1_r (k : nat) (m : Z) (r s : bool) :
  0 <= m ->
  shr_r (Nat.iter (S k) shr_1 {| shr_m := m; shr_r := r; shr_s := s |}) =
  Z.odd (m / 2 ^ Z.of_nat k).
Proof.
  intros Hm. rewrite Nat.iter_succ.
  pose proof (iter_shr_1_m k m r s Hm) as Hk.
  destruct (Nat.iter k shr_1 _) as [mk rk sk]. cbn in Hk. subst mk.
  rewrite shr_1_nonneg by (apply Z.div_pos; [lia|apply pow2_pos; lia]).
  reflexivity.
Qed.

Lemma fexp_eq (e : Z) : fexp prec emax e = Z.max (e - 53) (- 1074).
Proof. reflexivity. Qed.

Lemma Zdigits2_unique (m d : Z) :
  2 ^ (d - 1) <= m < 2 ^ d -> 0 < d -> Zdigits2 m = d.
Proof.
  intros H Hd. assert (0 < m).
  { pose proof (pow2_pos (d - 1)). lia. }
  destruct m as [|p|p]; try lia. cbn. now apply digits2_unique.
Qed.

Lemma loc_of_shr_record_of_loc (m : Z) (l : location) :
  loc_of_shr_record (shr_record_of_loc m l) = l.
Proof. now destruct l as [|[]]. Qed.

Lemma shr_record_of_loc_shape (m : Z) (l : location) :
  exists r s, shr_record_of_loc m l = {| shr_m := m; shr_r := r; shr_s := s |}.
Proof. destruct l as [|[]]; cbn; eauto. Qed.

Lemma round_nearest_even_cases (m : Z) (l : location) :
  round_nearest_even m l = m \/ round_nearest_even m l = m + 1.
Proof. destruct l as [|[]]; cbn; auto. destruct (Z.even m); auto. Qed.

Lemma round_nearest_even_low (mrs : shr_record) :
  shr_r mrs = false ->
  round_nearest_even (shr_m mrs) (loc_of_shr_record mrs) = shr_m mrs.
Proof. destruct mrs as [m [] []]; cbn; congruence. Qed.

Lemma round_nearest_even_high (mrs : shr_record) :
  shr_r mrs = true -> Z.odd (shr_m mrs) = true ->
  round_nearest_even (shr_m mrs) (loc_of_shr_record mrs) = shr_m mrs + 1.
Proof.
  destruct mrs as [m [] []]; cbn; try congruence.
  intros _ H. rewrite <- Z.negb_odd, H. reflexivity.
Qed.

(** First stage of rounding: the mantissa is shifted right to 53 bits. *)
Lemma shr_fexp_normal (mx ex : Z) (lx : location) (k : Z) :
  0 <= k -> 2 ^ (52 + k) <= mx < 2 ^ (53 + k) -> - 1074 <= ex ->
  shr_fexp prec emax mx ex lx =
    (Nat.iter (Z.to_nat k) shr_1 (shr_record_of_loc mx lx), ex + k).
Proof.
  intros Hk Hm He. unfold shr_fexp.
  rewrite (Zdigits2_unique mx (53 + k)) by (try replace (53 + k - 1) with (52 + k); lia).
  rewrite fexp_eq.
  replace (Z.max (53 + k + ex - 53) (- 1074) - ex) with k by lia.
  unfold shr. destruct k as [|p|p]; try lia.
  - cbn. now rewrite Z.add_0_r.
  - rewrite iter_pos_nat. reflexivity.
Qed.

Lemma binary_round_aux_normal (mx ex : Z) (lx : location) (k : Z) :
  0 <= k -> 2 ^ (52 + k) <= mx < 2 ^ (53 + k) -> - 1074 <= ex ->
  let mrs := Nat.iter (Z.to_nat k) shr_1 (shr_record_of_loc mx lx) in
  let m1 := round_nearest_even (shr_m mrs) (loc_of_shr_record mrs) in
  shr_m mrs = mx / 2 ^ k /\
  2 ^ 52 <= shr_m mrs < 2 ^ 53 /\
  binary_round_aux prec emax false mx ex lx =
    if m1 <? 2 ^ 53 then
      if ex + k <=? 971 then S754_finite false (Z.to_pos m1) (ex + k)
      else S754_infinity false
    else
      if ex + k + 1 <=? 971 then S754_finite false (2 ^ 52)%positive (ex + k + 1)
      else S754_infinity false.
Proof.
  intros Hk Hm He mrs m1.
  assert (Hmx : 0 <= mx) by (pose proof (pow2_pos (52 + k)); lia).
  assert (Hs : shr_m mrs = mx / 2 ^ k).
  { subst mrs. destruct (shr_record_of_loc_shape mx lx) as (r & s & ->).
    rewrite iter_shr_1_m by exact Hmx. now rewrite Z2Nat.id. }
  assert (Hb : 2 ^ 52 <= shr_m mrs < 2 ^ 53).
  { rewrite Hs. rewrite !Z.pow_add_r in Hm by lia.
    pose proof (pow2_pos k Hk). split.
    - apply Z.div_le_lower_bound; lia.
    - apply Z.div_lt_upper_bound; lia. }
  split; [exact Hs|]. split; [exact Hb|].
  unfold binary_round_aux.
  rewrite (shr_fexp_normal mx ex lx k) by assumption.
  fold mrs. fold m1.
  assert (Hm1 : m1 = shr_m mrs \/ m1 = shr_m mrs + 1)
    by apply round_nearest_even_cases.
  destruct (Z.ltb_spec m1 (2 ^ 53)) as [Hlt|Hge].
  - rewrite (shr_fexp_normal m1 (ex + k) loc_Exact 0) by (cbn [Z.add]; lia).
    cbn [Nat.iter Z.to_nat shr_record_of_loc shr_m nat_rect].
    destruct m1 as [|p|p]; try lia.
    rewrite Z.add_0_r. reflexivity.
  - assert (m1 = 2 ^ 53) by lia.
    rewrite H.
    rewrite (shr_fexp_normal (2 ^ 53) (ex + k) loc_Exact 1) by (cbn; lia).
    reflexivity.
Qed.

Lemma pos_iter_xO (p k : positive) :
  Zpos (Pos.iter xO p k) = Zpos p * 2 ^ Zpos k.
Proof.
  rewrite <- Z.shiftl_mul_pow2 by lia. cbn [Z.shiftl].
  apply (Pos.iter_swap_gen _ _ Zpos xO (Z.mul 2)). reflexivity.
Qed.

Lemma digits2_le_53 (p : positive) :
  Zpos p < 2 ^ 53 -> Zpos (digits2_pos p) <= 53.
Proof.
  intros H. pose proof (digits2_bounds p) as [Hlo _].
  assert (Zpos (digits2_pos p) - 1 < 53); [|lia].
  apply (Z.pow_lt_mono_r_iff 2); lia.
Qed.

(** Integers below [2^53] convert exactly. *)
Lemma float_of_int_small (n : Z) :
  0 < n < 2 ^ 53 ->
  exists m e,
    float_of_int n = Return (S754_finite false m e) /\
    normal_ge1 m e /\ e <= 0 /\ Zpos m = n * 2 ^ (- e).
Proof.
  intros [Hpos Hlt]. destruct n as [|p|p]; try lia.
  pose proof (digits2_bounds p) as [Blo Bhi].
  pose proof (digits2_le_53 p Hlt) as HD.
  set (D := Zpos (digits2_pos p)) in *.
  assert (HD1 : 1 <= D) by (subst D; lia).
  unfold float_of_int, binary_normalize, binary_round.
  fold D. rewrite fexp_eq. unfold shl_align.
  replace (Z.max (D + 0 - 53) (- 1074) - 0) with (D - 53) by lia.
  replace (Z.max (D + 0 - 53) (- 1074)) with (D - 53) by lia.
  destruct (D - 53) as [|q|q] eqn:Eq; try lia.
  - (* exactly 53 bits *)
    assert (D = 53) by lia.
    assert (Hm : 2 ^ (52 + 0) <= Zpos p < 2 ^ (53 + 0)).
    { cbn [Z.add]. replace 52 with (D - 1) by lia. split; [exact Blo|lia]. }
    destruct (binary_round_aux_normal (Zpos p) 0 loc_Exact 0
                ltac:(lia) Hm ltac:(lia)) as (_ & _ & ->).
    cbn [Z.to_nat Nat.iter nat_rect shr_record_of_loc shr_m
           loc_of_shr_record round_nearest_even].
    decide_test (Zpos p <? 2 ^ 53) true.
    cbn [Z.add Z.leb Z.compare Z.to_pos].
    exists p, 0. repeat split; try lia.
    + unfold prec. subst D. lia.
    + unfold emax, prec. lia.
  - (* fewer bits: aligned to the left *)
    pose proof (pos_iter_xO p q) as Hz.
    set (mz := Pos.iter xO p q) in *.
    assert (Hq : Zpos q = 53 - D) by lia.
    assert (Hm : 2 ^ (52 + 0) <= Zpos mz < 2 ^ (53 + 0)).
    { cbn [Z.add]. rewrite Hz, Hq.
      replace 52 with ((D - 1) + (53 - D)) by lia.
      replace (2 ^ 53) with (2 ^ (D + (53 - D))) by (f_equal; lia).
      rewrite !Z.pow_add_r by lia.
      pose proof (pow2_pos (53 - D)). nia. }
    destruct (binary_round_aux_normal (Zpos mz) (Zneg q) loc_Exact 0
                ltac:(lia) Hm ltac:(lia)) as (_ & _ & ->).
    cbn [Z.to_nat Nat.iter nat_rect shr_record_of_loc shr_m
           loc_of_shr_record round_nearest_even].
    replace (Zpos mz <? 2 ^ 53) with true
      by (symmetry; apply Z.ltb_lt; cbn [Z.add] in Hm; lia).
    decide_test (Zneg q + 0 <=? 971) true.
    cbn [Z.to_pos]. rewrite Z.add_0_r.
    exists mz, (Zneg q). repeat split; try lia.
    + unfold prec. apply digits2_unique. cbn [Z.add] in Hm. exact Hm.
    + unfold emax, prec. lia.
    + exact Hz.
Qed.

Lemma pow2_split (a b : Z) : 0 <= a -> 0 <= b -> 2 ^ (a + b) = 2 ^ a * 2 ^ b.
Proof. intros. now apply Z.pow_add_r. Qed.

(** Integers from [2^53] up to the overflow threshold round to a double. *)
Lemma float_of_int_large (n : Z) :
  2 ^ 53 <= n < 2 ^ 1024 - 2 ^ 970 ->
  exists m e,
    float_of_int n = Return (S754_finite false m e) /\ normal_ge1 m e.
Proof.
  intros [Hlo Hhi]. destruct n as [|p|p]; try lia.
  pose proof (digits2_bounds p) as [Blo Bhi].
  set (D := Zpos (digits2_pos p)) in *.
  assert (HD : 54 <= D <= 1024).
  { split.
    - assert (53 < D); [|lia]. apply (Z.pow_lt_mono_r_iff 2); lia.
    - assert (D - 1 < 1024); [|lia]. apply (Z.pow_lt_mono_r_iff 2); lia. }
  unfold float_of_int, binary_normalize, binary_round.
  fold D. rewrite fexp_eq. unfold shl_align.
  replace (Z.max (D + 0 - 53) (- 1074) - 0) with (D - 53) by lia.
  replace (Z.max (D + 0 - 53) (- 1074)) with (D - 53) by lia.
  destruct (D - 53) as [|k|k] eqn:Ek; try lia.
  assert (Hm : 2 ^ (52 + Zpos k) <= Zpos p < 2 ^ (53 + Zpos k)).
  { replace (52 + Zpos k) with (D - 1) by lia.
    replace (53 + Zpos k) with D by lia. now split. }
  destruct (binary_round_aux_normal (Zpos p) 0 loc_Exact (Zpos k)
              ltac:(lia) Hm ltac:(lia)) as (Hs & Hb & ->).
  cbn [shr_record_of_loc] in *.
  set (mrs := Nat.iter (Z.to_nat (Zpos k)) shr_1
                {| shr_m := Zpos p; shr_r := false; shr_s := false |}) in *.
  set (m1 := round_nearest_even (shr_m mrs) (loc_of_shr_record mrs)).
  assert (Hm1 : m1 = shr_m mrs \/ m1 = shr_m mrs + 1)
    by apply round_nearest_even_cases.
  destruct (Z.ltb_spec m1 (2 ^ 53)) as [Hlt|Hge].
  - decide_test (0 + Zpos k <=? 971) true.
    destruct m1 as [|m|m] eqn:Em; try lia.
    exists m, (0 + Zpos k). split; [reflexivity|]. split.
    + apply digits2_unique. unfold prec. lia.
    + unfold emax, prec. lia.
  - destruct (Z.leb_spec (0 + Zpos k + 1) 971) as [Hle|Hgt].
    + exists (2 ^ 52)%positive, (0 + Zpos k + 1). split; [reflexivity|]. split.
      * reflexivity.
      * unfold emax, prec. lia.
    + (* the largest binade: rounding up would overflow, but the input is
         below the midpoint *)
      exfalso.
      assert (Hk : Zpos k = 971) by lia.
      assert (Hr : shr_r mrs = Z.odd (Zpos p / 2 ^ 970)).
      { subst mrs. rewrite Hk. change (Z.to_nat 971) with (S (Z.to_nat 970)).
        rewrite iter_shr_1_r by lia. rewrite Z2Nat.id by lia. reflexivity. }
      assert (Ht : Zpos p / 2 ^ 970 < 2 ^ 54 - 1).
      { apply Z.div_lt_upper_bound; lia. }
      assert (Hs' : shr_m mrs = Zpos p / 2 ^ 970 / 2).
      { rewrite Hs, Hk, Z.div_div by lia. reflexivity. }
      assert (Hm1' : shr_m mrs = 2 ^ 53 - 1) by lia.
      assert (Zpos p / 2 ^ 970 = 2 ^ 54 - 2).
      { pose proof (Z.div_mod (Zpos p / 2 ^ 970) 2 ltac:(lia)).
        pose proof (Z.mod_pos_bound (Zpos p / 2 ^ 970) 2 ltac:(lia)). lia. }
      rewrite H in Hr.
      pose proof (round_nearest_even_low mrs Hr). fold m1 in H0. lia.
Qed.

(** From the midpoint between the largest double and [2^1024] on, the
    conversion overflows. *)
Lemma float_of_int_overflow (n : Z) :
  2 ^ 1024 - 2 ^ 970 <= n -> float_of_int n = Raise OverflowError.
Proof.
  intros Hlo. destruct n as [|p|p]; try lia.
  pose proof (digits2_bounds p) as [Blo Bhi].
  set (D := Zpos (digits2_pos p)) in *.
  assert (HD : 1024 <= D).
  { assert (1023 < D); [|lia]. apply (Z.pow_lt_mono_r_iff 2); lia. }
  unfold float_of_int, binary_normalize, binary_round.
  fold D. rewrite fexp_eq. unfold shl_align.
  replace (Z.max (D + 0 - 53) (- 1074) - 0) with (D - 53) by lia.
  replace (Z.max (D + 0 - 53) (- 1074)) with (D - 53) by lia.
  destruct (D - 53) as [|k|k] eqn:Ek; try lia.
  assert (Hm : 2 ^ (52 + Zpos k) <= Zpos p < 2 ^ (53 + Zpos k)).
  { replace (52 + Zpos k) with (D - 1) by lia.
    replace (53 + Zpos k) with D by lia. now split. }
  destruct (binary_round_aux_normal (Zpos p) 0 loc_Exact (Zpos k)
              ltac:(lia) Hm ltac:(lia)) as (Hs & Hb & ->).
  cbn [shr_record_of_loc] in *.
  set (mrs := Nat.iter (Z.to_nat (Zpos k)) shr_1
                {| shr_m := Zpos p; shr_r := false; shr_s := false |}) in *.
  set (m1 := round_nearest_even (shr_m mrs) (loc_of_shr_record mrs)).
  decide_test (0 + Zpos k + 1 <=? 971) false.
  destruct (Z.ltb_spec m1 (2 ^ 53)) as [Hlt|Hge]; [|reflexivity].
  destruct (Z.leb_spec (0 + Zpos k) 971) as [Hle|Hgt]; [|reflexivity].
  exfalso.
  assert (Hk : Zpos k = 971) by lia.
  assert (Hr : shr_r mrs = Z.odd (Zpos p / 2 ^ 970)).
  { subst mrs. rewrite Hk. change (Z.to_nat 971) with (S (Z.to_nat 970)).
    rewrite iter_shr_1_r by lia. rewrite Z2Nat.id by lia. reflexivity. }
  assert (Ht : 2 ^ 54 - 1 <= Zpos p / 2 ^ 970).
  { apply Z.div_le_lower_bound; lia. }
  assert (Hs' : shr_m mrs = Zpos p / 2 ^ 970 / 2).
  { rewrite Hs, Hk, Z.div_div by lia. reflexivity. }
  assert (Zpos p / 2 ^ 970 = 2 ^ 54 - 1).
  { pose proof (Z.div_mod (Zpos p / 2 ^ 970) 2 ltac:(lia)).
    pose proof (Z.mod_pos_bound (Zpos p / 2 ^ 970) 2 ltac:(lia)). lia. }
  assert (Hm1' : shr_m mrs = 2 ^ 53 - 1).
  { rewrite Hs', H. reflexivity. }
  rewrite H in Hr.
  assert (Hodd : Z.odd (shr_m mrs) = true) by (rewrite Hm1'; reflexivity).
  pose proof (round_nearest_even_high mrs Hr Hodd) as Hup.
  fold m1 in Hup. lia.
Qed.

Lemma float_of_int_normal (n : Z) :
  0 < n < 2 ^ 1024 - 2 ^ 970 ->
  exists m e,
    float_of_int n = Return (S754_finite false m e) /\ normal_ge1 m e.
Proof.
  intros H. destruct (Z.lt_ge_cases n (2 ^ 53)) as [Hs|Hl].
  - destruct (float_of_int_small n ltac:(lia)) as (m & e & ? & ? & _).
    now exists m, e.
  - apply float_of_int_large. lia.
Qed.

(** ** Dyadic order and faithful rounding *)

Lemma dle_scale (m1 e1 m2 e2 c : Z) :
  c <= e1 -> c <= e2 ->
  dle m1 e1 m2 e2 <-> m1 * 2 ^ (e1 - c) <= m2 * 2 ^ (e2 - c).
Proof.
  intros H1 H2. unfold dle. set (mn := Z.min e1 e2).
  assert (Hc : c <= mn) by (subst mn; lia).
  replace (e1 - c) with ((e1 - mn) + (mn - c)) by lia.
  replace (e2 - c) with ((e2 - mn) + (mn - c)) by lia.
  rewrite !pow2_split by (subst mn; lia).
  pose proof (pow2_pos (mn - c) ltac:(lia)) as Hp.
  rewrite !Z.mul_assoc. split; intros H.
  - apply Z.mul_le_mono_nonneg_r; lia.
  - apply Z.mul_le_mono_pos_r in H; lia.
Qed.

Lemma normal_ge1_bounded (m : positive) (e : Z) :
  normal_ge1 m e -> bounded prec emax m e = true.
Proof.
  intros [Hd He]. unfold bounded, canonical_mantissa.
  rewrite Hd, fexp_eq. unfold prec, emax in *.
  apply andb_true_iff. split; [apply Z.eqb_eq|apply Z.leb_le]; lia.
Qed.

(** The integer part of a double that is at least the integer [k]. *)
Lemma shiftl_ge_of_dle (k ef : Z) (mr : positive) (er : Z) :
  ef <= 0 ->
  dle (k * 2 ^ (- ef)) ef (Zpos mr) er -> k <= Z.shiftl (Zpos mr) er.
Proof.
  intros Hef H. destruct (Z.le_gt_cases 0 er) as [Her|Her].
  - rewrite Z.shiftl_mul_pow2 by lia.
    apply (dle_scale _ _ _ _ ef) in H; try lia.
    rewrite Z.sub_diag, Z.mul_1_r in H.
    replace (er - ef) with (er + - ef) in H by lia.
    rewrite pow2_split, Z.mul_assoc in H by lia.
    apply Z.mul_le_mono_pos_r in H; [exact H|apply pow2_pos; lia].
  - rewrite Z.shiftl_div_pow2 by lia.
    apply (dle_scale _ _ _ _ (ef + er)) in H; try lia.
    replace (ef - (ef + er)) with (- er) in H by lia.
    replace (er - (ef + er)) with (- ef) in H by lia.
    apply Z.div_le_lower_bound; [apply pow2_pos; lia|].
    pose proof (pow2_pos (- ef) ltac:(lia)).
    apply (Z.mul_le_mono_pos_r _ _ (2 ^ (- ef))); lia.
Qed.

(** The integer part of a double that is at most the double [mf * 2^ef]. *)
Lemma shiftl_le_of_dle (mf ef : Z) (mr : positive) (er : Z) :
  ef <= 0 ->
  dle (Zpos mr) er mf ef -> Z.shiftl (Zpos mr) er <= mf / 2 ^ (- ef).
Proof.
  intros Hef H.
  pose proof (pow2_pos (- ef) ltac:(lia)) as Hpf.
  apply Z.div_le_lower_bound; [exact Hpf|].
  destruct (Z.le_gt_cases 0 er) as [Her|Her].
  - rewrite Z.shiftl_mul_pow2 by lia.
    apply (dle_scale _ _ _ _ ef) in H; try lia.
    rewrite Z.sub_diag, Z.mul_1_r in H.
    replace (er - ef) with (er + - ef) in H by lia.
    rewrite pow2_split in H by lia. lia.
  - rewrite Z.shiftl_div_pow2 by lia.
    apply (dle_scale _ _ _ _ (ef + er)) in H; try lia.
    replace (ef - (ef + er)) with (- er) in H by lia.
    replace (er - (ef + er)) with (- ef) in H by lia.
    pose proof (pow2_pos (- er) ltac:(lia)) as Hpr.
    pose proof (Z.mul_div_le (Zpos mr) (2 ^ (- er)) Hpr) as Hfl.
    apply (Z.mul_le_mono_pos_r _ _ (2 ^ (- er))); [exact Hpr|].
    revert H Hfl Hpf Hpr.
    generalize (Zpos mr / 2 ^ (- er)) (2 ^ (- er)) (2 ^ (- ef)).
    intros a Q P H Hfl HP HQ. nia.
Qed.

Lemma dle_square_int (mf ef mx ex n : Z) :
  ef <= 0 -> ex <= 0 -> mx = n * 2 ^ (- ex) ->
  dle (mf * mf) (2 * ef) mx ex <-> mf * mf <= n * (2 ^ (- ef) * 2 ^ (- ef)).
Proof.
  intros Hef Hex ->.
  rewrite (dle_scale _ _ _ _ (2 * ef + ex)) by lia.
  replace (2 * ef - (2 * ef + ex)) with (- ex) by lia.
  replace (ex - (2 * ef + ex)) with (- ef + - ef) by lia.
  rewrite pow2_split by lia.
  pose proof (pow2_pos (- ex) ltac:(lia)) as HQ.
  generalize dependent (2 ^ (- ex)). generalize (2 ^ (- ef)).
  intros P Q HQ. split; intros H.
  - apply (Z.mul_le_mono_pos_r _ _ Q); [exact HQ|]. lia.
  - apply (Z.mul_le_mono_pos_r _ _ Q) in H; [|exact HQ]. lia.
Qed.

Lemma dle_int_square (mf ef mx ex n : Z) :
  ef <= 0 -> ex <= 0 -> mx = n * 2 ^ (- ex) ->
  dle mx ex (mf * mf) (2 * ef) <-> n * (2 ^ (- ef) * 2 ^ (- ef)) <= mf * mf.
Proof.
  intros Hef Hex ->.
  rewrite (dle_scale _ _ _ _ (2 * ef + ex)) by lia.
  replace (2 * ef - (2 * ef + ex)) with (- ex) by lia.
  replace (ex - (2 * ef + ex)) with (- ef + - ef) by lia.
  rewrite pow2_split by lia.
  pose proof (pow2_pos (- ex) ltac:(lia)) as HQ.
  generalize dependent (2 ^ (- ex)). generalize (2 ^ (- ef)).
  intros P Q HQ. split; intros H.
  - apply (Z.mul_le_mono_pos_r _ _ Q); [exact HQ|]. lia.
  - apply (Z.mul_le_mono_pos_r _ _ Q) in H; [|exact HQ]. lia.
Qed.

Section Faithful.

Variable pw : spec_float -> spec_float.
Hypothesis pw_faithful : faithful_sqrt pw.

(** Below the overflow threshold [int(n ** 0.5)] is defined. *)
Lemma int_pow_half_defined (n : Z) :
  0 < n < 2 ^ 1024 - 2 ^ 970 ->
  exists x r, pow_half pw n = Return x /\ int_of_number x = Return r.
Proof.
  intros Hn.
  destruct (float_of_int_normal n Hn) as (mx & ex & Hf & Hnorm).
  destruct (pw_faithful mx ex Hnorm) as (mr & er & Hpw & _).
  exists (PyFloat (S754_finite false mr er)), (Z.shiftl (Zpos mr) er).
  unfold pow_half. rewrite Hf, Hpw. split; reflexivity.
Qed.

(** Below [2^53] it lies between the doubles around the square root. *)
Lemma int_pow_half_between (n : Z) :
  0 < n < 2 ^ 53 ->
  exists x r,
    pow_half pw n = Return x /\ int_of_number x = Return r /\
    (forall mf ef k, normal_ge1 mf ef -> ef <= 0 ->
       Zpos mf = k * 2 ^ (- ef) -> k * k <= n -> k <= r) /\
    (forall mf ef, normal_ge1 mf ef -> ef <= 0 ->
       n * (2 ^ (- ef) * 2 ^ (- ef)) <= Zpos mf * Zpos mf ->
       r <= Zpos mf / 2 ^ (- ef)).
Proof.
  intros Hn.
  destruct (float_of_int_small n Hn) as (mx & ex & Hf & Hnorm & Hex & Hmx).
  destruct (pw_faithful mx ex Hnorm) as (mr & er & Hpw & _ & Hlo & Hhi).
  exists (PyFloat (S754_finite false mr er)), (Z.shiftl (Zpos mr) er).
  unfold pow_half. rewrite Hf, Hpw.
  split; [reflexivity|]. split; [reflexivity|]. split.
  - intros mf ef k Hnf Hef Hk Hsq.
    apply (shiftl_ge_of_dle k ef); [exact Hef|]. rewrite <- Hk.
    apply Hlo; [now apply normal_ge1_bounded|].
    apply (dle_square_int _ _ _ _ n); try assumption.
    rewrite Hk. pose proof (pow2_pos (- ef) ltac:(lia)) as HP.
    generalize dependent (2 ^ (- ef)). intros P _ HP. nia.
  - intros mf ef Hnf Hef Hsq.
    apply shiftl_le_of_dle; [exact Hef|].
    apply Hhi; [now apply normal_ge1_bounded|].
    now apply (dle_int_square _ _ _ _ n).
Qed.

Lemma int_pow_half_small (n : Z) :
  1 < n < 2 ^ 53 ->
  exists x r,
    pow_half pw n = Return x /\ int_of_number x = Return r /\
    Z.sqrt n <= r < n.
Proof.
  intros Hn.
  destruct (int_pow_half_between n ltac:(lia)) as (x & r & Hx & Hr & Hlo & Hhi).
  exists x, r. split; [exact Hx|]. split; [exact Hr|].
  pose proof (Z.sqrt_spec n ltac:(lia)) as [Hs1 Hs2].
  assert (Hk : 1 <= Z.sqrt n).
  { change 1 with (Z.sqrt 1). apply Z.sqrt_le_mono. lia. }
  assert (Hkn : Z.sqrt n < n) by (apply Z.sqrt_lt_lin; lia).
  split.
  - destruct (float_of_int_small (Z.sqrt n) ltac:(lia))
      as (mk & ek & _ & Hnk & Hek & Hmk).
    apply (Hlo mk ek); assumption.
  - destruct (Z.le_gt_cases 4 n) as [H4|H4].
    + destruct (float_of_int_small (Z.sqrt n + 1) ltac:(lia))
        as (mk & ek & _ & Hnk & Hek & Hmk).
      specialize (Hhi mk ek Hnk Hek).
      rewrite Hmk, Z.div_mul in Hhi by (pose proof (pow2_pos (- ek)); lia).
      assert (2 <= Z.sqrt n).
      { change 2 with (Z.sqrt 4). apply Z.sqrt_le_mono. lia. }
      assert (r <= Z.sqrt n + 1); [|nia].
      apply Hhi. unfold Z.succ in Hs2.
      generalize (2 ^ (- ek)). intros P. nia.
    + assert (Hcase : n = 2 \/ n = 3) by lia.
      destruct Hcase as [-> | ->].
      * assert (r <= 1); [|lia].
        apply (Hhi (3 * 2 ^ 51)%positive (- 52)); try lia.
        split; [reflexivity|unfold emax, prec; lia].
      * assert (r <= 1); [|lia].
        apply (Hhi (7 * 2 ^ 50)%positive (- 52)); try lia.
        split; [reflexivity|unfold emax, prec; lia].
Qed.

End Faithful.

(** ** The IEEE square root is faithful *)

Lemma half_decompose (e : Z) :
  exists h rho, e = 2 * h + rho /\ 0 <= rho <= 1 /\ e / 2 = h.
Proof.
  exists (e / 2), (e mod 2).
  pose proof (Z.div_mod e 2 ltac:(lia)).
  pose proof (Z.mod_pos_bound e 2 ltac:(lia)). lia.
Qed.

(** The integer square root step of the IEEE square root. *)
Lemma sqrt_core_normal (mx : positive) (ex : Z) :
  normal_ge1 mx ex ->
  exists q r s,
    SFsqrt_core_binary prec emax (Zpos mx) ex =
      (q, ex / 2 - 26,
       if r =? 0 then loc_Exact
       else loc_Inexact (if r <=? q then Lt else Gt)) /\
    52 <= s <= 53 /\ s = ex - 2 * (ex / 2 - 26) /\
    Zpos mx * 2 ^ s = q * q + r /\ 0 <= r <= 2 * q /\
    2 ^ 52 <= q < 2 ^ 53.
Proof.
  intros [Hd He]. unfold prec, emax in *.
  destruct (half_decompose ex) as (h & rho & Hex & Hrho & Hh).
  unfold SFsqrt_core_binary. cbn [Zdigits2]. rewrite Hd.
  rewrite fexp_eq, !Z.div2_div.
  replace ((53 + ex + 1) / 2) with (h + 27).
  2:{ replace (53 + ex + 1) with (rho + (h + 27) * 2) by lia.
      rewrite Z.div_add by lia. rewrite Z.div_small; lia. }
  rewrite Hh.
  replace (Z.min (Z.max (h + 27 - 53) (- 1074)) h) with (h - 26) by lia.
  set (s := ex - 2 * (h - 26)).
  assert (Hs : 52 <= s <= 53) by (subst s; lia).
  destruct s as [|sp|sp] eqn:Es; try lia.
  rewrite Z.shiftl_mul_pow2 by lia.
  pose proof (Z.sqrtrem_spec (Zpos mx * 2 ^ Zpos sp)) as Hspec.
  destruct (Z.sqrtrem (Zpos mx * 2 ^ Zpos sp)) as [q r].
  pose proof (digits2_bounds mx) as Hmx. rewrite Hd in Hmx.
  assert (Hp : 2 ^ 52 <= 2 ^ Zpos sp <= 2 ^ 53).
  { split; apply Z.pow_le_mono_r; lia. }
  specialize (Hspec ltac:(lia)). destruct Hspec as [Hq Hr].
  exists q, r, (Zpos sp). split; [reflexivity|].
  split; [lia|]. split; [lia|]. split; [exact Hq|]. split; [exact Hr|].
  change (2 ^ (53 - 1)) with (2 ^ 52) in Hmx.
  set (P := 2 ^ Zpos sp) in *. clearbody P.
  split; nia.
Qed.

(** The IEEE square root of a normal double at least 1: the integer square
    root [q] of the scaled mantissa, or [q + 1] when the remainder exceeds
    [q]. *)
Lemma ieee_sqrt_normal (mx : positive) (ex : Z) :
  normal_ge1 mx ex ->
  exists q s m1,
    ieee_sqrt (S754_finite false mx ex) =
      S754_finite false (Z.to_pos m1) (ex / 2 - 26) /\
    0 <= s /\ s = ex - 2 * (ex / 2 - 26) /\
    q * q <= Zpos mx * 2 ^ s < (q + 1) * (q + 1) /\
    2 ^ 52 <= q /\ m1 < 2 ^ 53 /\
    (m1 = q \/ m1 = q + 1 /\ q * q < Zpos mx * 2 ^ s).
Proof.
  intros Hn.
  destruct (sqrt_core_normal mx ex Hn)
    as (q & r & s & Hcore & Hs & Hse & Hq & Hr & Hqb).
  destruct Hn as [Hd He]. unfold prec, emax in Hd, He.
  pose proof (half_decompose ex) as (h & rho & Hex & Hrho & Hh).
  set (l := if r =? 0 then loc_Exact
            else loc_Inexact (if r <=? q then Lt else Gt)) in *.
  assert (Hm1 : round_nearest_even q l = q \/
                round_nearest_even q l = q + 1 /\ q < r).
  { subst l. destruct (Z.eqb_spec r 0); [now left|].
    destruct (Z.leb_spec r q); [now left|]. right. split; [reflexivity|lia]. }
  assert (Hlt : round_nearest_even q l < 2 ^ 53).
  { destruct Hm1 as [->|[-> Hgt]]; [lia|].
    pose proof (digits2_bounds mx) as Hmx. rewrite Hd in Hmx.
    assert (Hp : 2 ^ s <= 2 ^ 53) by (apply Z.pow_le_mono_r; lia).
    pose proof (pow2_pos s ltac:(lia)) as Hp0.
    set (P := 2 ^ s) in *. clearbody P. nia. }
  exists q, s, (round_nearest_even q l).
  split.
  - unfold ieee_sqrt, SFsqrt. rewrite Hcore. fold l.
    destruct (binary_round_aux_normal q (ex / 2 - 26) l 0
                ltac:(lia) ltac:(cbn [Z.add]; lia) ltac:(lia))
      as (_ & _ & ->).
    cbn [Z.to_nat Nat.iter nat_rect].
    destruct (shr_record_of_loc_shape q l) as (rb & sb & Hshape).
    replace (shr_m (shr_record_of_loc q l)) with q by (now rewrite Hshape).
    rewrite loc_of_shr_record_of_loc.
    replace (round_nearest_even q l <? 2 ^ 53) with true
      by (symmetry; apply Z.ltb_lt; exact Hlt).
    decide_test (ex / 2 - 26 + 0 <=? 971) true.
    now rewrite Z.add_0_r.
  - split; [lia|]. split; [exact Hse|]. split; [nia|]. split; [lia|].
    split; [exact Hlt|].
    destruct Hm1 as [->|[-> Hgt]]; [now left|right]. split; [reflexivity|nia].
Qed.

Lemma bounded_mantissa (mf : positive) (ef : Z) :
  bounded prec emax mf ef = true -> Zpos mf < 2 ^ 53.
Proof.
  unfold bounded, canonical_mantissa. intros H.
  apply andb_true_iff in H. destruct H as [H _].
  apply Z.eqb_eq in H. rewrite fexp_eq in H.
  pose proof (digits2_bounds mf) as [_ Hhi].
  apply Z.lt_le_trans with (1 := Hhi).
  apply Z.pow_le_mono_r; lia.
Qed.

(** The correctly rounded IEEE square root is in particular faithful. *)
Lemma ieee_sqrt_faithful : faithful_sqrt ieee_sqrt.
Proof.
  intros mx ex Hn.
  destruct (ieee_sqrt_normal mx ex Hn)
    as (q & s & m1 & Heq & Hs0 & Hs & Hq & Hq52 & Hm53 & Hm1).
  destruct Hn as [Hd He]. unfold prec, emax in Hd, He.
  pose proof (half_decompose ex) as (h & rho & Hex & Hrho & Hh).
  set (e' := ex / 2 - 26) in *.
  assert (Hm1b : 2 ^ 52 <= m1 < 2 ^ 53) by lia.
  assert (Hpos : Zpos (Z.to_pos m1) = m1) by (apply Z2Pos.id; lia).
  exists (Z.to_pos m1), e'. split; [exact Heq|]. split; [|split].
  - apply normal_ge1_bounded. split.
    + rewrite <- Hpos in Hm1b. now apply digits2_unique.
    + unfold emax, prec. lia.
  - (* no double below the root lies above the result *)
    intros mf ef Hb Hsq. rewrite Hpos.
    pose proof (bounded_mantissa mf ef Hb) as Hmf.
    destruct (Z.le_gt_cases e' ef) as [Hle|Hgt].
    + apply (dle_scale _ _ _ _ (2 * e')) in Hsq; try lia.
      apply (dle_scale _ _ _ _ e'); try lia.
      replace (2 * ef - 2 * e') with ((ef - e') + (ef - e')) in Hsq by lia.
      replace (ex - 2 * e') with s in Hsq by lia.
      rewrite pow2_split in Hsq by lia.
      rewrite Z.sub_diag, Z.mul_1_r.
      pose proof (pow2_pos (ef - e') ltac:(lia)) as HT.
      set (T := 2 ^ (ef - e')) in *. clearbody T.
      set (M := Zpos mx * 2 ^ s) in *. clearbody M. nia.
    + apply (dle_scale _ _ _ _ ef); try lia.
      rewrite Z.sub_diag, Z.mul_1_r.
      assert (HU : 2 ^ 1 <= 2 ^ (e' - ef)) by (apply Z.pow_le_mono_r; lia).
      set (U := 2 ^ (e' - ef)) in *. clearbody U. nia.
  - (* no double above the root lies below the result *)
    intros mf ef Hb Hsq. rewrite Hpos.
    pose proof (bounded_mantissa mf ef Hb) as Hmf.
    destruct (Z.le_gt_cases e' ef) as [Hle|Hgt].
    + apply (dle_scale _ _ _ _ (2 * e')) in Hsq; try lia.
      apply (dle_scale _ _ _ _ e'); try lia.
      replace (2 * ef - 2 * e') with ((ef - e') + (ef - e')) in Hsq by lia.
      replace (ex - 2 * e') with s in Hsq by lia.
      rewrite pow2_split in Hsq by lia.
      rewrite Z.sub_diag, Z.mul_1_r.
      pose proof (pow2_pos (ef - e') ltac:(lia)) as HT.
      set (T := 2 ^ (ef - e')) in *. clearbody T.
      set (M := Zpos mx * 2 ^ s) in *. clearbody M.
      destruct Hm1 as [->|[-> Hlt]]; nia.
    + exfalso.
      apply (dle_scale _ _ _ _ (2 * ef)) in Hsq; try lia.
      rewrite Z.sub_diag, Z.mul_1_r in Hsq.
      replace (ex - 2 * ef) with (s + ((e' - ef) + (e' - ef))) in Hsq by lia.
      rewrite !pow2_split in Hsq by lia.
      assert (HU : 2 ^ 1 <= 2 ^ (e' - ef)) by (apply Z.pow_le_mono_r; lia).
      set (U := 2 ^ (e' - ef)) in *. clearbody U.
      rewrite Z.mul_assoc in Hsq.
      set (M := Zpos mx * 2 ^ s) in *. clearbody M.
      assert (2 ^ 104 <= M) by nia.
      assert (Zpos mf * Zpos mf < 2 ^ 106) by nia.
      assert (M * 4 <= M * (U * U)) by nia.
      lia.
Qed.

(** ** Trial division *)

Lemma sqrt_lt_self (n : Z) : 1 < n -> Z.sqrt n < n.
Proof. intros. apply Z.sqrt_lt_lin. lia. Qed.

(** A proper divisor has a partner that is at most the square root. *)
Lemma small_divisor (n i : Z) :
  2 <= i < n -> n mod i = 0 ->
  exists j, 2 <= j <= Z.sqrt n /\ n mod j = 0.
Proof.
  intros Hi Hm.
  pose proof (Z.sqrt_spec n ltac:(lia)) as [Hs1 Hs2]. unfold Z.succ in Hs2.
  destruct (Z.le_gt_cases i (Z.sqrt n)) as [Hle|Hgt].
  - exists i. split; [lia|exact Hm].
  - pose proof (Z.div_mod n i ltac:(lia)) as Hd. rewrite Hm, Z.add_0_r in Hd.
    set (j := n / i) in *. clearbody j.
    assert (Hj : 2 <= j <= Z.sqrt n) by nia.
    exists j. split; [exact Hj|].
    rewrite Hd. apply Z.mod_mul. lia.
Qed.

Lemma trial_division_true (n : Z) :
  trial_division n = true <-> no_divisor_upto_sqrt n.
Proof.
  unfold trial_division, no_divisor_upto_sqrt.
  rewrite negb_true_iff, has_divisor_false.
  split; intros H i Hi; apply H; [apply in_range|apply in_range in Hi]; lia.
Qed.

Lemma has_divisor_upto (n r : Z) :
  1 < n -> Z.sqrt n <= r < n ->
  has_divisor n (range 2 (r + 1)) = has_divisor n (range 2 (Z.sqrt n + 1)).
Proof.
  intros Hn Hr. apply eq_true_iff_eq. rewrite !has_divisor_true.
  split; intros (i & Hi & Hm); apply in_range in Hi.
  - destruct (small_divisor n i ltac:(lia) Hm) as (j & Hj & Hmj).
    exists j. split; [apply in_range; lia|exact Hmj].
  - exists i. split; [apply in_range; lia|exact Hm].
Qed.

Lemma prime_number_trial (n : Z) :
  1 < n -> prime_number n <-> no_divisor_upto_sqrt n.
Proof.
  intros Hn. pose proof (sqrt_lt_self n Hn) as Hlt. split.
  - intros [_ Hp] i Hi Hm.
    apply Z.mod_divide in Hm; [|lia].
    destruct (Hp i ltac:(lia) Hm); lia.
  - intros H. split; [exact Hn|]. intros d Hd Hdiv.
    assert (Hle : d <= n) by (apply Z.divide_pos_le; [lia|exact Hdiv]).
    destruct (Z.eq_dec d 1) as [|H1]; [now left|].
    destruct (Z.eq_dec d n) as [|H2]; [now right|]. exfalso.
    apply Z.mod_divide in Hdiv; [|lia].
    destruct (small_divisor n d ltac:(lia) Hdiv) as (j & Hj & Hmj).
    exact (H j Hj Hmj).
Qed.

Section Correct.

Variable pw : spec_float -> spec_float.
Hypothesis pw_faithful : faithful_sqrt pw.

Lemma is_prime_result_small (n : Z) :
  1 < n < 2 ^ 53 -> is_prime_result pw n = Return (trial_division n).
Proof.
  intros Hn. unfold is_prime_result.
  decide_test (n <=? 1) false.
  destruct (int_pow_half_small pw pw_faithful n Hn)
    as (x & r & -> & -> & Hr).
  unfold trial_division. now rewrite (has_divisor_upto n r) by lia.
Qed.

Lemma is_prime_result_defined (n : Z) :
  n < 2 ^ 1024 - 2 ^ 970 -> exists b, is_prime_result pw n = Return b.
Proof.
  intros Hn. unfold is_prime_result.
  destruct (Z.leb_spec n 1) as [Hle|Hgt]; [now exists false|].
  destruct (int_pow_half_defined pw pw_faithful n ltac:(lia))
    as (x & r & -> & ->).
  eauto.
Qed.

End Correct.

Lemma is_prime_result_overflow (pw : spec_float -> spec_float) (n : Z) :
  2 ^ 1024 - 2 ^ 970 <= n -> is_prime_result pw n = Raise OverflowError.
Proof.
  intros Hn. unfold is_prime_result, pow_half.
  decide_test (n <=? 1) false.
  now rewrite float_of_int_overflow.
Qed.

(** ** Ranges, comprehensions and the loop machine *)

Lemma range_cons (a b : Z) : a < b -> range a b = a :: range (a + 1) b.
Proof.
  intros H. unfold range.
  replace (Z.to_nat (b - a)) with (S (Z.to_nat (b - (a + 1)))) by lia.
  cbn [seq map]. f_equal; [lia|].
  rewrite <- seq_shift, map_map. apply map_ext. intros k. lia.
Qed.

Lemma range_nil (a b : Z) : b <= a -> range a b = [].
Proof.
  intros H. unfold range. now replace (Z.to_nat (b - a)) with O by lia.
Qed.

Lemma range_sorted (a b : Z) : StronglySorted Z.lt (range a b).
Proof.
  remember (Z.to_nat (b - a)) as k eqn:Hk. revert a Hk.
  induction k as [|k IH]; intros a Hk.
  - rewrite range_nil by lia. constructor.
  - rewrite range_cons by lia. constructor.
    + apply IH. lia.
    + apply Forall_forall. intros x Hx. apply in_range in Hx. lia.
Qed.

Lemma filter_sorted (f : Z -> bool) (l : list Z) :
  StronglySorted Z.lt l -> StronglySorted Z.lt (filter f l).
Proof.
  induction 1 as [|x l Hs IH Hall]; cbn; [constructor|].
  destruct (f x); [|exact IH]. constructor; [exact IH|].
  apply Forall_forall. intros y Hy. apply filter_In in Hy.
  rewrite Forall_forall in Hall. now apply Hall.
Qed.

Lemma comprehension_if_pure (cond : Z -> Py bool) (f : Z -> bool)
      (l : list Z) (w : world) :
  (forall n, In n l -> cond n w = (Return (f n), w)) ->
  comprehension_if cond l w = (Return (filter f l), w).
Proof.
  induction l as [|n l IH]; intros H; [reflexivity|].
  cbn [comprehension_if filter]. unfold bind at 1.
  rewrite (H n) by now left. unfold bind at 1.
  rewrite IH by (intros m Hm; apply H; now right).
  reflexivity.
Qed.

Lemma loop_run_exited (fuel : nat) (n stop : Z) (r : result bool) :
  loop_run fuel n stop (Exited r) = Exited r.
Proof. induction fuel; [reflexivity|exact IHfuel]. Qed.

(** The loop as a transition system reaches its exit within one step per
    item of the range, plus the step that finds the range exhausted. *)
Lemma loop_run_range (n stop : Z) (k : nat) (i : Z) :
  0 < i -> Z.to_nat (stop - i) = k ->
  loop_run (S k) n stop (Looping i) =
    Exited (Return (negb (has_divisor n (range i stop)))).
Proof.
  revert i. induction k as [|k IH]; intros i Hi Hk.
  - cbn. decide_test (i <? stop) false.
    now rewrite range_nil by lia.
  - change (loop_run (S (S k)) n stop (Looping i))
      with (loop_run (S k) n stop (loop_step n stop (Looping i))).
    cbn [loop_step].
    decide_test (i <? stop) true.
    rewrite range_cons by lia. cbn [has_divisor existsb]. unfold py_mod.
    decide_test (i =? 0) false.
    destruct (n mod i =? 0).
    + now rewrite loop_run_exited.
    + apply IH; lia.
Qed.

(** ** The claims *)

Lemma is_prime_candidate (pw : spec_float -> spec_float) (n : Z) (w : world) :
  faithful_sqrt pw -> n < 2 ^ 53 ->
  is_prime pw n w = (Return (candidate_is_prime n), w).
Proof.
  intros Hpw Hn. rewrite is_prime_run. f_equal. unfold candidate_is_prime.
  destruct (Z.leb_spec n 1) as [Hle|Hgt].
  - unfold is_prime_result.
    now decide_test (n <=? 1) true.
  - apply is_prime_result_small; [exact Hpw|lia].
Qed.

Lemma primes_run (pw : spec_float -> spec_float) (w : world) :
  faithful_sqrt pw -> primes pw w = (Return primes_upto_100, w).
Proof.
  intros Hpw. unfold primes.
  rewrite (comprehension_if_pure _ candidate_is_prime).
  - reflexivity.
  - intros n Hn. apply in_range in Hn.
    apply is_prime_candidate; [exact Hpw|lia].
Qed.

(** C2: the enumeration over 1..100 yields exactly the 25 primes below 100,
    in scan order. *)
Theorem primes_upto_100_correct (pw : spec_float -> spec_float) (w : world) :
  faithful_sqrt pw ->
  primes pw w =
    (Return [2; 3; 5; 7; 11; 13; 17; 19; 23; 29; 31; 37; 41; 43; 47; 53; 59;
             61; 67; 71; 73; 79; 83; 89; 97], w).
Proof. intros Hpw. now rewrite primes_run. Qed.

Lemma primes_upto_100_correct_witness :
  faithful_sqrt ieee_sqrt /\
  primes ieee_sqrt w0 =
    (Return [2; 3; 5; 7; 11; 13; 17; 19; 23; 29; 31; 37; 41; 43; 47; 53; 59;
             61; 67; 71; 73; 79; 83; 89; 97], w0).
Proof.
  split; [exact ieee_sqrt_faithful|].
  exact (primes_upto_100_correct ieee_sqrt w0 ieee_sqrt_faithful).
Defined.

(** C3: for every integer n <= 1 (zero and the negatives included),
    is_prime(n) returns false. *)
Theorem is_prime_le_1 (pw : spec_float -> spec_float) (n : Z) (w : world) :
  n <= 1 -> is_prime pw n w = (Return false, w).
Proof.
  intros Hn. unfold is_prime.
  now decide_test (n <=? 1) true.
Qed.

Lemma is_prime_le_1_witness :
  -5 <= 1 /\ is_prime ieee_sqrt (-5) w0 = (Return false, w0).
Proof.
  split; [lia|]. apply (is_prime_le_1 ieee_sqrt (-5) w0). lia.
Defined.

(** C4: the enumeration over 1..100 returns a list whose every element
    passes is_prime, and which is strictly increasing. *)
Theorem primes_invariant (pw : spec_float -> spec_float) (w : world) :
  faithful_sqrt pw ->
  exists l, primes pw w = (Return l, w) /\
            Forall (fun p => is_prime pw p w = (Return true, w)) l /\
            StronglySorted Z.lt l.
Proof.
  intros Hpw. exists (filter candidate_is_prime (range 1 101)).
  split; [|split].
  - unfold primes. apply comprehension_if_pure.
    intros n Hn. apply in_range in Hn.
    apply is_prime_candidate; [exact Hpw|lia].
  - apply Forall_forall. intros p Hp. apply filter_In in Hp.
    destruct Hp as [Hin Hc]. apply in_range in Hin.
    rewrite is_prime_candidate by (try exact Hpw; lia). now rewrite Hc.
  - apply filter_sorted, range_sorted.
Qed.

Lemma primes_invariant_witness :
  faithful_sqrt ieee_sqrt /\
  exists l, primes ieee_sqrt w0 = (Return l, w0) /\
            Forall (fun p => is_prime ieee_sqrt p w0 = (Return true, w0)) l /\
            StronglySorted Z.lt l.
Proof.
  split; [exact ieee_sqrt_faithful|].
  exact (primes_invariant ieee_sqrt w0 ieee_sqrt_faithful).
Defined.

(** C5: the program appends exactly one line to standard output, the label
    followed by the textual representation of the 25 primes, and ends
    normally; nothing else is written. *)
Theorem main_output (pw : spec_float -> spec_float) (w : world) :
  faithful_sqrt pw ->
  main pw w = (Return tt, {| stdout := stdout w ++ output_line ++ newline |}) /\
  existsb (Ascii.eqb "010") (list_ascii_of_string output_line) = false.
Proof.
  intros Hpw. split; [|vm_compute; reflexivity].
  unfold main, bind. rewrite primes_run by exact Hpw.
  unfold print. reflexivity.
Qed.

Lemma main_output_witness :
  faithful_sqrt ieee_sqrt /\
  main ieee_sqrt w0 = (Return tt, {| stdout := output_line ++ newline |}).
Proof.
  split; [exact ieee_sqrt_faithful|].
  exact (proj1 (main_output ieee_sqrt w0 ieee_sqrt_faithful)).
Defined.

(** C6: is_prime(1) = false, is_prime(2) = true, is_prime(4) = false,
    is_prime(97) = true and is_prime(100) = false. *)
Theorem is_prime_boundary_values (pw : spec_float -> spec_float) (w : world) :
  faithful_sqrt pw ->
  is_prime pw 1 w = (Return false, w) /\
  is_prime pw 2 w = (Return true, w) /\
  is_prime pw 4 w = (Return false, w) /\
  is_prime pw 97 w = (Return true, w) /\
  is_prime pw 100 w = (Return false, w).
Proof.
  intros Hpw.
  repeat split; rewrite is_prime_candidate by (try exact Hpw; lia);
    reflexivity.
Qed.

Lemma is_prime_boundary_values_witness :
  faithful_sqrt ieee_sqrt /\
  is_prime ieee_sqrt 1 w0 = (Return false, w0) /\
  is_prime ieee_sqrt 2 w0 = (Return true, w0) /\
  is_prime ieee_sqrt 4 w0 = (Return false, w0) /\
  is_prime ieee_sqrt 97 w0 = (Return true, w0) /\
  is_prime ieee_sqrt 100 w0 = (Return false, w0).
Proof.
  split; [exact ieee_sqrt_faithful|].
  exact (is_prime_boundary_values ieee_sqrt w0 ieee_sqrt_faithful).
Defined.

(** C7 (amended): is_prime returns a boolean, without raising, exactly on
    the integers n < 2^1024 - 2^970 (zero and the negatives included, which
    the n <= 1 branch answers with false before any power is evaluated);
    from 2^1024 - 2^970 on, converting n to a float raises OverflowError. *)
Theorem is_prime_total_below_overflow
        (pw : spec_float -> spec_float) (n : Z) (w : world) :
  faithful_sqrt pw ->
  (n < 2 ^ 1024 - 2 ^ 970 -> exists b, is_prime pw n w = (Return b, w)) /\
  (n <= 1 -> is_prime pw n w = (Return false, w)) /\
  (2 ^ 1024 - 2 ^ 970 <= n -> is_prime pw n w = (Raise OverflowError, w)).
Proof.
  intros Hpw. split; [|split].
  - intros Hn. destruct (is_prime_result_defined pw Hpw n Hn) as (b & Hb).
    exists b. now rewrite is_prime_run, Hb.
  - intros Hn. unfold is_prime.
    now decide_test (n <=? 1) true.
  - intros Hn. now rewrite is_prime_run, is_prime_result_overflow.
Qed.

Lemma is_prime_total_below_overflow_witness :
  faithful_sqrt ieee_sqrt /\ 0 < 2 ^ 1024 - 2 ^ 970 /\
  exists b, is_prime ieee_sqrt 0 w0 = (Return b, w0).
Proof.
  split; [exact ieee_sqrt_faithful|]. split; [reflexivity|].
  apply (proj1 (is_prime_total_below_overflow ieee_sqrt 0 w0
                  ieee_sqrt_faithful)).
  reflexivity.
Defined.

(** C7 as stated fails at n = 2^1024 - 2^970, the least integer whose
    conversion to a float overflows: the call raises OverflowError. *)
Lemma is_prime_total_fails :
  is_prime ieee_sqrt (2 ^ 1024 - 2 ^ 970) w0 = (Raise OverflowError, w0) /\
  ~ (exists b, is_prime ieee_sqrt (2 ^ 1024 - 2 ^ 970) w0 = (Return b, w0)).
Proof.
  assert (He : is_prime ieee_sqrt (2 ^ 1024 - 2 ^ 970) w0
               = (Raise OverflowError, w0)) by (vm_compute; reflexivity).
  split; [exact He|]. intros (b & Hb). rewrite He in Hb. discriminate.
Qed.

(** C8: two calls of is_prime on the same n give the same result; the
    result does not depend on the state the call starts from, and the call
    leaves that state as it found it. *)
Theorem is_prime_deterministic
        (pw : spec_float -> spec_float) (n : Z) (w w' : world) :
  fst (is_prime pw n w) = fst (is_prime pw n w') /\
  snd (is_prime pw n w) = w /\
  fst (is_prime pw n (snd (is_prime pw n w))) = fst (is_prime pw n w).
Proof. rewrite !is_prime_run. cbn. repeat split. Qed.

(** C9: for every integer n with 1 <= n <= 100, is_prime(n) returns true
    if and only if n is a prime number (an integer greater than 1 with no
    positive divisors other than 1 and itself). *)
Theorem is_prime_agrees_with_primality
        (pw : spec_float -> spec_float) (n : Z) (w : world) :
  faithful_sqrt pw -> 1 <= n <= 100 ->
  exists b, is_prime pw n w = (Return b, w) /\
            (b = true <-> prime_number n).
Proof.
  intros Hpw Hn. exists (candidate_is_prime n). split.
  - apply is_prime_candidate; [exact Hpw|lia].
  - unfold candidate_is_prime.
    destruct (Z.leb_spec n 1) as [Hle|Hgt].
    + split; [discriminate|]. intros [H1 _]. lia.
    + rewrite trial_division_true. symmetry. now apply prime_number_trial.
Qed.

Lemma is_prime_agrees_with_primality_witness :
  faithful_sqrt ieee_sqrt /\ 1 <= 91 <= 100 /\
  exists b, is_prime ieee_sqrt 91 w0 = (Return b, w0) /\
            (b = true <-> prime_number 91).
Proof.
  split; [exact ieee_sqrt_faithful|]. split; [lia|].
  apply (is_prime_agrees_with_primality ieee_sqrt 91 w0 ieee_sqrt_faithful).
  lia.
Defined.

(** C10 (amended): is_prime terminates on every integer.  For n <= 1 it
    returns at once; for 1 < n < 2^1024 - 2^970 the loop runs over the finite
    range from 2 to int(n**0.5) + 1 exclusive and exits, with the value the
    function returns, after at most max(0, int(n**0.5) - 1) iterations and
    the test that finds the range exhausted; for larger n the evaluation
    stops with OverflowError before the loop is entered. *)
Theorem is_prime_terminates
        (pw : spec_float -> spec_float) (n : Z) (w : world) :
  faithful_sqrt pw ->
  (n <= 1 -> is_prime pw n w = (Return false, w)) /\
  (1 < n < 2 ^ 1024 - 2 ^ 970 ->
   exists x r b,
     pow_half pw n = Return x /\ int_of_number x = Return r /\
     loop_run (S (Z.to_nat (r - 1))) n (r + 1) (Looping 2)
       = Exited (Return b) /\
     is_prime pw n w = (Return b, w)) /\
  (2 ^ 1024 - 2 ^ 970 <= n -> is_prime pw n w = (Raise OverflowError, w)).
Proof.
  intros Hpw. split; [|split].
  - intros Hn. unfold is_prime.
    now decide_test (n <=? 1) true.
  - intros Hn.
    destruct (int_pow_half_defined pw Hpw n ltac:(lia)) as (x & r & Hx & Hr).
    exists x, r, (negb (has_divisor n (range 2 (r + 1)))).
    split; [exact Hx|]. split; [exact Hr|]. split.
    + apply loop_run_range; lia.
    + rewrite is_prime_run. unfold is_prime_result.
      decide_test (n <=? 1) false.
      now rewrite Hx, Hr.
  - intros Hn. now rewrite is_prime_run, is_prime_result_overflow.
Qed.

Lemma is_prime_terminates_witness :
  faithful_sqrt ieee_sqrt /\ 1 < 97 < 2 ^ 1024 - 2 ^ 970 /\
  exists x r b,
    pow_half ieee_sqrt 97 = Return x /\ int_of_number x = Return r /\
    loop_run (S (Z.to_nat (r - 1))) 97 (r + 1) (Looping 2)
      = Exited (Return b) /\
    is_prime ieee_sqrt 97 w0 = (Return b, w0).
Proof.
  split; [exact ieee_sqrt_faithful|]. split; [split; reflexivity|].
  apply (proj1 (proj2 (is_prime_terminates ieee_sqrt 97 w0
                         ieee_sqrt_faithful))).
  split; reflexivity.
Defined.

(** C10 as stated fails at n = 10^309: the function does not return, the
    evaluation of n ** 0.5 raises OverflowError. *)
Lemma is_prime_returns_fails :
  is_prime ieee_sqrt (10 ^ 309) w0 = (Raise OverflowError, w0) /\
  ~ (exists b, is_prime ieee_sqrt (10 ^ 309) w0 = (Return b, w0)).
Proof.
  assert (He : is_prime ieee_sqrt (10 ^ 309) w0 = (Raise OverflowError, w0))
    by (vm_compute; reflexivity).
  split; [exact He|]. intros (b & Hb). rewrite He in Hb. discriminate.
Qed.

(** The error branches that the first test of is_prime keeps out of reach:
    a negative base gives a complex power, which [int] rejects. *)
Example int_pow_half_negative :
  pow_half ieee_sqrt (-4) = Return PyComplex /\
  int_of_number PyComplex = Raise TypeError.
Proof. split; reflexivity. Qed.

(** * Further properties of the program *)

(** ** Conversion and square-root bound above [2^53] *)

(** Integers from [2^53] on convert to a double with a positive exponent
    whose value is at most twice the integer. *)
Lemma float_of_int_large_value (n : Z) :
  2 ^ 53 <= n < 2 ^ 1024 - 2 ^ 970 ->
  exists m e,
    float_of_int n = Return (S754_finite false m e) /\ normal_ge1 m e /\
    1 <= e /\ Zpos m * 2 ^ e <= 2 * n.
Proof.
  intros [Hlo Hhi]. destruct n as [|p|p]; try lia.
  pose proof (digits2_bounds p) as [Blo Bhi].
  set (D := Zpos (digits2_pos p)) in *.
  assert (HD : 54 <= D <= 1024).
  { split.
    - assert (53 < D); [|lia]. apply (Z.pow_lt_mono_r_iff 2); lia.
    - assert (D - 1 < 1024); [|lia]. apply (Z.pow_lt_mono_r_iff 2); lia. }
  destruct (D - 53) as [|k|k] eqn:Ek; try lia.
  assert (Hm : 2 ^ (52 + Zpos k) <= Zpos p < 2 ^ (53 + Zpos k)).
  { replace (52 + Zpos k) with (D - 1) by lia.
    replace (53 + Zpos k) with D by lia. now split. }
  destruct (binary_round_aux_normal (Zpos p) 0 loc_Exact (Zpos k)
              ltac:(lia) Hm ltac:(lia)) as (Hs & Hb & Heq).
  destruct (float_of_int_large (Zpos p) (conj Hlo Hhi)) as (m & e & Hf & Hnorm).
  exists m, e. split; [exact Hf|]. split; [exact Hnorm|].
  unfold float_of_int, binary_normalize, binary_round in Hf.
  fold D in Hf. rewrite fexp_eq in Hf. unfold shl_align in Hf.
  replace (Z.max (D + 0 - 53) (- 1074) - 0) with (D - 53) in Hf by lia.
  replace (Z.max (D + 0 - 53) (- 1074)) with (D - 53) in Hf by lia.
  rewrite Ek, Heq in Hf. clear Heq.
  cbn [shr_record_of_loc] in *.
  set (mrs := Nat.iter (Z.to_nat (Zpos k)) shr_1
                {| shr_m := Zpos p; shr_r := false; shr_s := false |}) in *.
  set (m1 := round_nearest_even (shr_m mrs) (loc_of_shr_record mrs)) in *.
  assert (Hm1 : m1 = shr_m mrs \/ m1 = shr_m mrs + 1)
    by apply round_nearest_even_cases.
  pose proof (pow2_pos (Zpos k) ltac:(lia)) as Hpk.
  pose proof (Z.mul_div_le (Zpos p) (2 ^ Zpos k) Hpk) as Hfloor.
  assert (Hpk' : 2 ^ Zpos k <= Zpos p).
  { apply Z.le_trans with (2 := proj1 Hm). apply Z.pow_le_mono_r; lia. }
  rewrite <- Hs in Hfloor.
  destruct (Z.ltb_spec m1 (2 ^ 53)) as [Hlt|Hge].
  - destruct (0 + Zpos k <=? 971); [|discriminate].
    injection Hf as Hmm He. subst e.
    assert (Zpos m = m1) by (rewrite <- Hmm; apply Z2Pos.id; lia).
    split; [lia|]. rewrite H.
    set (P := 2 ^ Zpos k) in *. clearbody P. nia.
  - destruct (0 + Zpos k + 1 <=? 971); [|discriminate].
    injection Hf as Hmm He. subst e m.
    split; [lia|].
    change (Zpos (2 ^ 52)) with (2 ^ 52).
    replace (Zpos (k + 1)) with (Zpos k + 1) by lia.
    rewrite <- pow2_split by lia.
    replace (52 + (Zpos k + 1)) with (Z.succ (52 + Zpos k)) by lia.
    rewrite Z.pow_succ_r by lia. lia.
Qed.

(** Truncation is monotone on the dyadic order. *)
Lemma shiftl_mono_dle (mr : positive) (er mf ef : Z) :
  0 <= mf -> dle (Zpos mr) er mf ef ->
  Z.shiftl (Zpos mr) er <= Z.shiftl mf ef.
Proof.
  intros Hmf H. destruct (Z.le_gt_cases ef 0) as [Hef|Hef].
  - rewrite (Z.shiftl_div_pow2 mf) by lia. now apply shiftl_le_of_dle.
  - rewrite (Z.shiftl_mul_pow2 mf) by lia.
    destruct (Z.le_gt_cases 0 er) as [Her|Her].
    + rewrite Z.shiftl_mul_pow2 by lia.
      apply (dle_scale _ _ _ _ 0) in H; try lia.
      now rewrite !Z.sub_0_r in H.
    + rewrite Z.shiftl_div_pow2 by lia.
      apply (dle_scale _ _ _ _ er) in H; try lia.
      rewrite Z.sub_diag, Z.mul_1_r in H.
      replace (ef - er) with (ef + - er) in H by lia.
      rewrite pow2_split in H by lia.
      pose proof (pow2_pos (- er) ltac:(lia)) as Hp.
      apply Z.div_le_upper_bound; [exact Hp|]. lia.
Qed.

Section FaithfulLarge.

Variable pw : spec_float -> spec_float.
Hypothesis pw_faithful : faithful_sqrt pw.

(** From [2^53] up to the overflow threshold [int(n ** 0.5)] is at least
    [2^26] and stays below [n]. *)
Lemma int_pow_half_large (n : Z) :
  2 ^ 53 <= n < 2 ^ 1024 - 2 ^ 970 ->
  exists x r,
    pow_half pw n = Return x /\ int_of_number x = Return r /\
    2 ^ 26 <= r < n.
Proof.
  intros Hn.
  destruct (float_of_int_large_value n Hn) as (m & e & Hf & Hnorm & He & Hv).
  destruct (pw_faithful m e Hnorm) as (mr & er & Hpw & _ & Hlo & Hhi).
  exists (PyFloat (S754_finite false mr er)), (Z.shiftl (Zpos mr) er).
  unfold pow_half. rewrite Hf, Hpw.
  split; [reflexivity|]. split; [reflexivity|].
  pose proof (digits2_bounds m) as Hm.
  destruct Hnorm as [Hd Hr]. rewrite Hd in Hm. unfold prec, emax in *.
  change (2 ^ (53 - 1)) with (2 ^ 52) in Hm.
  split.
  - apply (shiftl_ge_of_dle (2 ^ 26) (- 26)); [lia|].
    apply (Hlo (2 ^ 52)%positive (- 26)).
    + apply normal_ge1_bounded. split; [reflexivity|unfold emax, prec; lia].
    + apply (dle_scale _ _ _ _ (- 52)); try lia.
      replace (e - - 52) with (e + 52) by lia.
      rewrite pow2_split by lia.
      assert (2 ^ 1 <= 2 ^ e) by (apply Z.pow_le_mono_r; lia).
      set (P := 2 ^ e) in *. clearbody P.
      change (2 * - 26 - - 52) with 0. lia.
  - apply Z.le_lt_trans with (Z.shiftl (Zpos m) (e - 2)).
    + apply shiftl_mono_dle; [lia|].
      apply (Hhi m (e - 2)).
      * apply normal_ge1_bounded. split; [exact Hd|unfold emax, prec; lia].
      * apply (dle_scale _ _ _ _ (e - 4)); try lia.
        replace (e - (e - 4)) with 4 by lia.
        replace (2 * (e - 2) - (e - 4)) with e by lia.
        pose proof (pow2_pos e ltac:(lia)) as Hp.
        set (P := 2 ^ e) in *. clearbody P. nia.
    + destruct (Z.eq_dec e 1) as [->|Hne].
      * change (1 - 2) with (- 1).
        rewrite Z.shiftl_div_pow2 by lia.
        apply Z.div_lt_upper_bound; [reflexivity|].
        change (2 ^ 1) with 2 in Hv. change (2 ^ (- - 1)) with 2. lia.
      * rewrite Z.shiftl_mul_pow2 by lia.
        replace e with ((e - 2) + 2) in Hv by lia.
        rewrite pow2_split in Hv by lia.
        pose proof (pow2_pos (e - 2) ltac:(lia)) as Hp.
        set (P := 2 ^ (e - 2)) in *. clearbody P. nia.
Qed.

End FaithfulLarge.

(** ** The loop, step by step *)

Lemma loop_run_add (a b : nat) (n stop : Z) (s : loop_state) :
  loop_run (a + b) n stop s = loop_run b n stop (loop_run a n stop s).
Proof.
  revert s. induction a as [|a IH]; intros s; [reflexivity|].
  cbn [Nat.add loop_run]. apply IH.
Qed.

(** While no divisor is met, each step moves the iterator on by one. *)
Lemma loop_run_no_divisor (n stop : Z) (j : nat) (i : Z) :
  0 < i -> i + Z.of_nat j <= stop ->
  (forall t, i <= t < i + Z.of_nat j -> n mod t <> 0) ->
  loop_run j n stop (Looping i) = Looping (i + Z.of_nat j).
Proof.
  revert i. induction j as [|j IH]; intros i Hi Hstop Hnd.
  - cbn. f_equal. lia.
  - cbn [loop_run loop_step].
    decide_test (i <? stop) true. unfold py_mod.
    decide_test (i =? 0) false.
    assert (Hm : n mod i <> 0) by (apply Hnd; lia).
    apply Z.eqb_neq in Hm. rewrite Hm.
    rewrite IH; [f_equal; lia|lia|lia|].
    intros t Ht. apply Hnd. lia.
Qed.

Lemma float_of_int_positive_sign (n : Z) (m : positive) (e : Z) :
  0 < n -> float_of_int n <> Return (S754_finite true m e).
Proof.
  intros Hn. destruct n as [|p|p]; try lia.
  unfold float_of_int, binary_normalize, binary_round.
  destruct (shl_align _ _ _) as [mz ez]. unfold binary_round_aux.
  destruct (shr_fexp _ _ _ _ _) as [mrs' e'].
  destruct (shr_fexp _ _ _ _ _) as [mrs'' e''].
  destruct (shr_m mrs''); [discriminate| |discriminate].
  destruct (_ <=? _); discriminate.
Qed.

Lemma least_divisor_below_sqrt (n d : Z) :
  2 <= d < n -> n mod d = 0 ->
  (forall i, 2 <= i < d -> n mod i <> 0) -> d <= Z.sqrt n.
Proof.
  intros Hd Hm Hleast.
  destruct (small_divisor n d Hd Hm) as (j & Hj & Hmj).
  destruct (Z.le_gt_cases d j) as [Hle|Hgt]; [lia|].
  exfalso. apply (Hleast j); [lia|exact Hmj].
Qed.

(** The reference test decides primality. *)
Lemma candidate_is_prime_true (n : Z) :
  candidate_is_prime n = true <-> prime_number n.
Proof.
  unfold candidate_is_prime. destruct (Z.leb_spec n 1) as [Hle|Hgt].
  - split; [discriminate|]. intros [H1 _]. lia.
  - rewrite trial_division_true. symmetry. now apply prime_number_trial.
Qed.

(** ** A second faithful square root *)

Lemma floor_sqrt_faithful : faithful_sqrt floor_sqrt.
Proof.
  intros mx ex Hn.
  destruct (sqrt_core_normal mx ex Hn)
    as (q & r & s & Hcore & Hs & Hse & Hq & Hr & Hqb).
  destruct Hn as [Hd He]. unfold prec, emax in Hd, He.
  pose proof (half_decompose ex) as (h & rho & Hex & Hrho & Hh).
  set (e' := ex / 2 - 26) in *.
  assert (Hpos : Zpos (Z.to_pos q) = q) by (apply Z2Pos.id; lia).
  exists (Z.to_pos q), e'. split; [|split; [|split]].
  - unfold floor_sqrt. now rewrite Hcore.
  - apply normal_ge1_bounded. split.
    + rewrite <- Hpos in Hqb. now apply digits2_unique.
    + unfold emax, prec. lia.
  - intros mf ef Hb Hsq. rewrite Hpos.
    pose proof (bounded_mantissa mf ef Hb) as Hmf.
    destruct (Z.le_gt_cases e' ef) as [Hle|Hgt].
    + apply (dle_scale _ _ _ _ (2 * e')) in Hsq; try lia.
      apply (dle_scale _ _ _ _ e'); try lia.
      replace (2 * ef - 2 * e') with ((ef - e') + (ef - e')) in Hsq by lia.
      replace (ex - 2 * e') with s in Hsq by lia.
      rewrite pow2_split in Hsq by lia.
      rewrite Z.sub_diag, Z.mul_1_r.
      pose proof (pow2_pos (ef - e') ltac:(lia)) as HT.
      set (T := 2 ^ (ef - e')) in *. clearbody T.
      set (M := Zpos mx * 2 ^ s) in *. clearbody M. nia.
    + apply (dle_scale _ _ _ _ ef); try lia.
      rewrite Z.sub_diag, Z.mul_1_r.
      assert (HU : 2 ^ 1 <= 2 ^ (e' - ef)) by (apply Z.pow_le_mono_r; lia).
      set (U := 2 ^ (e' - ef)) in *. clearbody U. nia.
  - intros mf ef Hb Hsq. rewrite Hpos.
    pose proof (bounded_mantissa mf ef Hb) as Hmf.
    destruct (Z.le_gt_cases e' ef) as [Hle|Hgt].
    + apply (dle_scale _ _ _ _ (2 * e')) in Hsq; try lia.
      apply (dle_scale _ _ _ _ e'); try lia.
      replace (2 * ef - 2 * e') with ((ef - e') + (ef - e')) in Hsq by lia.
      replace (ex - 2 * e') with s in Hsq by lia.
      rewrite pow2_split in Hsq by lia.
      rewrite Z.sub_diag, Z.mul_1_r.
      pose proof (pow2_pos (ef - e') ltac:(lia)) as HT.
      set (T := 2 ^ (ef - e')) in *. clearbody T.
      set (M := Zpos mx * 2 ^ s) in *. clearbody M. nia.
    + exfalso.
      apply (dle_scale _ _ _ _ (2 * ef)) in Hsq; try lia.
      rewrite Z.sub_diag, Z.mul_1_r in Hsq.
      replace (ex - 2 * ef) with (s + ((e' - ef) + (e' - ef))) in Hsq by lia.
      rewrite !pow2_split in Hsq by lia.
      assert (HU : 2 ^ 1 <= 2 ^ (e' - ef)) by (apply Z.pow_le_mono_r; lia).
      set (U := 2 ^ (e' - ef)) in *. clearbody U.
      rewrite Z.mul_assoc in Hsq.
      set (M := Zpos mx * 2 ^ s) in *. clearbody M.
      assert (2 ^ 104 <= M) by nia.
      assert (Zpos mf * Zpos mf < 2 ^ 106) by nia.
      assert (M * 4 <= M * (U * U)) by nia.
      lia.
Qed.

(** Below a prime p only 1 divides p * p. *)
Lemma prime_square_no_small_divisor (p i : Z) :
  prime_number p -> 2 <= i < p -> (p * p) mod i <> 0.
Proof.
  intros [Hp1 Hp] Hi Hm. apply Z.mod_divide in Hm; [|lia].
  pose proof (Z.gcd_divide_l i p) as Hgi.
  pose proof (Z.gcd_divide_r i p) as Hgp.
  pose proof (Z.gcd_nonneg i p) as Hg0.
  assert (Hgnz : Z.gcd i p <> 0).
  { intros H0. rewrite H0 in Hgp. apply Z.divide_0_l in Hgp. lia. }
  destruct (Hp (Z.gcd i p) ltac:(lia) Hgp) as [Hg|Hg].
  - apply Z.gauss in Hm; [|exact Hg].
    destruct (Hp i ltac:(lia) Hm); lia.
  - rewrite Hg in Hgi. apply Z.divide_pos_le in Hgi; lia.
Qed.

(** ** Properties of [is_prime] and of the enumeration *)

(** X1: for every integer n below 2^53 (negative numbers, 0 and 1
    included) is_prime(n) returns a boolean, which is true exactly when n is
    a prime number. *)
Theorem is_prime_iff_prime_number
        (pw : spec_float -> spec_float) (n : Z) (w : world) :
  faithful_sqrt pw -> n < 2 ^ 53 ->
  exists b, is_prime pw n w = (Return b, w) /\
            (b = true <-> prime_number n).
Proof.
  intros Hpw Hn. exists (candidate_is_prime n). split.
  - now apply is_prime_candidate.
  - apply candidate_is_prime_true.
Qed.

Lemma is_prime_iff_prime_number_witness :
  faithful_sqrt ieee_sqrt /\ 1000003 < 2 ^ 53 /\
  exists b, is_prime ieee_sqrt 1000003 w0 = (Return b, w0) /\
            (b = true <-> prime_number 1000003).
Proof.
  split; [exact ieee_sqrt_faithful|]. split; [reflexivity|].
  apply (is_prime_iff_prime_number ieee_sqrt 1000003 w0 ieee_sqrt_faithful).
  reflexivity.
Defined.

(** X2: on a perfect square k*k below 2^53 the bound int(n ** 0.5) is
    exactly k, so the loop does test the root itself. *)
Theorem int_pow_half_square (pw : spec_float -> spec_float) (k : Z) :
  faithful_sqrt pw -> 0 < k -> k * k < 2 ^ 53 ->
  exists x, pow_half pw (k * k) = Return x /\ int_of_number x = Return k.
Proof.
  intros Hpw Hk Hsq.
  destruct (int_pow_half_between pw Hpw (k * k) ltac:(nia))
    as (x & r & Hx & Hr & Hlo & Hhi).
  destruct (float_of_int_small k ltac:(nia))
    as (mk & ek & _ & Hnk & Hek & Hmk).
  exists x. split; [exact Hx|]. rewrite Hr. f_equal.
  apply Z.le_antisymm.
  - specialize (Hhi mk ek Hnk Hek).
    rewrite Hmk, Z.div_mul in Hhi by (pose proof (pow2_pos (- ek)); lia).
    apply Hhi. generalize (2 ^ (- ek)). intros P. nia.
  - apply (Hlo mk ek k Hnk Hek Hmk). lia.
Qed.

Lemma int_pow_half_square_witness :
  faithful_sqrt ieee_sqrt /\ 0 < 7 /\ 7 * 7 < 2 ^ 53 /\
  exists x, pow_half ieee_sqrt (7 * 7) = Return x /\
            int_of_number x = Return 7.
Proof.
  split; [exact ieee_sqrt_faithful|]. split; [reflexivity|].
  split; [reflexivity|].
  apply (int_pow_half_square ieee_sqrt 7 ieee_sqrt_faithful); reflexivity.
Defined.

Lemma int_pow_half_sqrt_bounds (pw : spec_float -> spec_float) (n : Z) :
  faithful_sqrt pw -> 0 < n < 2 ^ 53 ->
  exists x r, pow_half pw n = Return x /\ int_of_number x = Return r /\
              Z.sqrt n <= r <= Z.sqrt n + 1.
Proof.
  intros Hpw Hn.
  destruct (int_pow_half_between pw Hpw n Hn) as (x & r & Hx & Hr & Hlo & Hhi).
  exists x, r. split; [exact Hx|]. split; [exact Hr|].
  pose proof (Z.sqrt_spec n ltac:(lia)) as [Hs1 Hs2]. unfold Z.succ in Hs2.
  assert (Hk : 1 <= Z.sqrt n).
  { change 1 with (Z.sqrt 1). apply Z.sqrt_le_mono. lia. }
  assert (Hkn : Z.sqrt n <= n) by nia.
  split.
  - destruct (float_of_int_small (Z.sqrt n) ltac:(lia))
      as (mk & ek & _ & Hnk & Hek & Hmk).
    apply (Hlo mk ek); assumption.
  - assert (Hk1 : Z.sqrt n + 1 < 2 ^ 53).
    { destruct (Z.eq_dec n 1) as [->|]; [reflexivity|]. nia. }
    destruct (float_of_int_small (Z.sqrt n + 1) ltac:(lia))
      as (mk & ek & _ & Hnk & Hek & Hmk).
    specialize (Hhi mk ek Hnk Hek).
    rewrite Hmk, Z.div_mul in Hhi by (pose proof (pow2_pos (- ek)); lia).
    apply Hhi. generalize (2 ^ (- ek)). intros P. nia.
Qed.

(** X3: for 0 < n < 2^53 the bound int(n ** 0.5) is never below the
    integer square root of n and at most one above it. *)
Theorem int_pow_half_near_sqrt (pw : spec_float -> spec_float) (n : Z) :
  faithful_sqrt pw -> 0 < n < 2 ^ 53 ->
  exists x r, pow_half pw n = Return x /\ int_of_number x = Return r /\
              Z.sqrt n <= r <= Z.sqrt n + 1.
Proof. intros Hpw Hn. now apply int_pow_half_sqrt_bounds. Qed.

Lemma int_pow_half_near_sqrt_witness :
  faithful_sqrt ieee_sqrt /\ 0 < 4503599761588224 < 2 ^ 53 /\
  exists x r, pow_half ieee_sqrt 4503599761588224 = Return x /\
              int_of_number x = Return r /\
              Z.sqrt 4503599761588224 <= r <= Z.sqrt 4503599761588224 + 1.
Proof.
  split; [exact ieee_sqrt_faithful|]. split; [split; reflexivity|].
  apply (int_pow_half_near_sqrt ieee_sqrt 4503599761588224
           ieee_sqrt_faithful).
  split; reflexivity.
Defined.

(** The upper end is reached: with the correctly rounded square root,
    int(4503599761588224 ** 0.5) is one above the integer square root. *)
Example int_pow_half_one_above :
  pow_half ieee_sqrt 4503599761588224
    = Return (PyFloat (S754_finite false (2 ^ 52 + 2 ^ 26) (- 26))) /\
  int_of_number (PyFloat (S754_finite false (2 ^ 52 + 2 ^ 26) (- 26)))
    = Return 67108865 /\
  Z.sqrt 4503599761588224 = 67108864.
Proof. repeat split; vm_compute; reflexivity. Qed.

(** X4: is_prime never rejects a prime number: for every prime n below the
    overflow threshold 2^1024 - 2^970 it returns true. *)
Theorem is_prime_accepts_primes
        (pw : spec_float -> spec_float) (n : Z) (w : world) :
  faithful_sqrt pw -> prime_number n -> n < 2 ^ 1024 - 2 ^ 970 ->
  is_prime pw n w = (Return true, w).
Proof.
  intros Hpw Hp Hn. destruct (Z.lt_ge_cases n (2 ^ 53)) as [Hs|Hl].
  - rewrite is_prime_candidate by assumption.
    apply candidate_is_prime_true in Hp. now rewrite Hp.
  - destruct (int_pow_half_large pw Hpw n ltac:(lia))
      as (x & r & Hx & Hr & Hrb).
    rewrite is_prime_run. unfold is_prime_result.
    decide_test (n <=? 1) false. rewrite Hx, Hr.
    f_equal. f_equal. apply negb_true_iff, has_divisor_false.
    intros i Hi Hm. apply in_range in Hi.
    destruct Hp as [_ Hp]. apply Z.mod_divide in Hm; [|lia].
    destruct (Hp i ltac:(lia) Hm); lia.
Qed.

Lemma is_prime_accepts_primes_witness :
  faithful_sqrt ieee_sqrt /\ prime_number 97 /\ 97 < 2 ^ 1024 - 2 ^ 970 /\
  is_prime ieee_sqrt 97 w0 = (Return true, w0).
Proof.
  assert (Hp : prime_number 97).
  { apply prime_number_trial; [reflexivity|].
    apply trial_division_true. reflexivity. }
  split; [exact ieee_sqrt_faithful|]. split; [exact Hp|].
  split; [reflexivity|].
  apply (is_prime_accepts_primes ieee_sqrt 97 w0 ieee_sqrt_faithful Hp).
  reflexivity.
Defined.

(** X5: a proper divisor between 2 and 2^26 is always found: every n below
    the overflow threshold that has one (every even n > 2, for instance) is
    rejected. *)
Theorem is_prime_rejects_small_factor
        (pw : spec_float -> spec_float) (n i : Z) (w : world) :
  faithful_sqrt pw -> n < 2 ^ 1024 - 2 ^ 970 ->
  2 <= i <= 2 ^ 26 -> i < n -> n mod i = 0 ->
  is_prime pw n w = (Return false, w).
Proof.
  intros Hpw Hn Hi Hin Hm. destruct (Z.lt_ge_cases n (2 ^ 53)) as [Hs|Hl].
  - rewrite is_prime_candidate by assumption. f_equal. f_equal.
    apply not_true_is_false. intros Hbt.
    apply candidate_is_prime_true in Hbt. destruct Hbt as [_ Hp].
    apply Z.mod_divide in Hm; [|lia].
    destruct (Hp i ltac:(lia) Hm); lia.
  - destruct (int_pow_half_large pw Hpw n ltac:(lia))
      as (x & r & Hx & Hr & Hrb).
    rewrite is_prime_run. unfold is_prime_result.
    decide_test (n <=? 1) false. rewrite Hx, Hr.
    f_equal. f_equal. apply negb_false_iff, has_divisor_true.
    exists i. split; [apply in_range; lia|exact Hm].
Qed.

Lemma is_prime_rejects_small_factor_witness :
  faithful_sqrt ieee_sqrt /\ 2 ^ 1000 < 2 ^ 1024 - 2 ^ 970 /\
  2 <= 2 <= 2 ^ 26 /\ 2 < 2 ^ 1000 /\ 2 ^ 1000 mod 2 = 0 /\
  is_prime ieee_sqrt (2 ^ 1000) w0 = (Return false, w0).
Proof.
  split; [exact ieee_sqrt_faithful|]. split; [reflexivity|].
  split; [split; discriminate|]. split; [reflexivity|].
  split; [reflexivity|].
  apply (is_prime_rejects_small_factor ieee_sqrt (2 ^ 1000) 2 w0
           ieee_sqrt_faithful);
    try reflexivity.
  split; discriminate.
Defined.

(** X6: the loop stops at the first divisor.  For a composite n below 2^53
    whose least divisor from 2 on is d, the iterator reaches d after d - 2
    steps and the next step leaves the function with false: exactly d - 1
    remainders are computed, however large n is. *)
Theorem is_prime_short_circuit
        (pw : spec_float -> spec_float) (n d : Z) :
  faithful_sqrt pw -> n < 2 ^ 53 -> 2 <= d < n -> n mod d = 0 ->
  (forall i, 2 <= i < d -> n mod i <> 0) ->
  exists x r,
    pow_half pw n = Return x /\ int_of_number x = Return r /\
    loop_run (Z.to_nat (d - 2)) n (r + 1) (Looping 2) = Looping d /\
    loop_run (Z.to_nat (d - 1)) n (r + 1) (Looping 2) = Exited (Return false).
Proof.
  intros Hpw Hn Hd Hm Hleast.
  destruct (int_pow_half_small pw Hpw n ltac:(lia)) as (x & r & Hx & Hr & Hrb).
  pose proof (least_divisor_below_sqrt n d Hd Hm Hleast) as Hds.
  exists x, r. split; [exact Hx|]. split; [exact Hr|].
  assert (Hpre : loop_run (Z.to_nat (d - 2)) n (r + 1) (Looping 2)
                 = Looping d).
  { rewrite loop_run_no_divisor; [f_equal; lia|lia|lia|].
    intros t Ht. apply Hleast. lia. }
  split; [exact Hpre|].
  replace (Z.to_nat (d - 1)) with (Z.to_nat (d - 2) + 1)%nat by lia.
  rewrite loop_run_add, Hpre. cbn [loop_run loop_step].
  decide_test (d <? r + 1) true. unfold py_mod.
  decide_test (d =? 0) false. now rewrite Hm.
Qed.

Lemma is_prime_short_circuit_witness :
  faithful_sqrt ieee_sqrt /\ 1000004 * 7 < 2 ^ 53 /\
  exists x r,
    pow_half ieee_sqrt (1000004 * 7) = Return x /\
    int_of_number x = Return r /\
    loop_run (Z.to_nat (2 - 2)) (1000004 * 7) (r + 1) (Looping 2)
      = Looping 2 /\
    loop_run (Z.to_nat (2 - 1)) (1000004 * 7) (r + 1) (Looping 2)
      = Exited (Return false).
Proof.
  split; [exact ieee_sqrt_faithful|]. split; [reflexivity|].
  apply (is_prime_short_circuit ieee_sqrt (1000004 * 7) 2 ieee_sqrt_faithful).
  - reflexivity.
  - split; [discriminate|reflexivity].
  - reflexivity.
  - intros i Hi. lia.
Defined.

(** X7: for 1 < n < 2^53 the loop exits, with the value is_prime returns,
    within floor(sqrt n) + 1 steps: at most floor(sqrt n) remainders are
    computed. *)
Theorem is_prime_sqrt_many_steps
        (pw : spec_float -> spec_float) (n : Z) (w : world) :
  faithful_sqrt pw -> 1 < n < 2 ^ 53 ->
  exists x r b steps,
    pow_half pw n = Return x /\ int_of_number x = Return r /\
    (steps <= Z.to_nat (Z.sqrt n) + 1)%nat /\
    loop_run steps n (r + 1) (Looping 2) = Exited (Return b) /\
    is_prime pw n w = (Return b, w).
Proof.
  intros Hpw Hn.
  destruct (int_pow_half_sqrt_bounds pw n Hpw ltac:(lia))
    as (x & r & Hx & Hr & Hrb).
  exists x, r, (negb (has_divisor n (range 2 (r + 1)))),
    (S (Z.to_nat (r - 1))).
  split; [exact Hx|]. split; [exact Hr|]. split; [lia|]. split.
  - apply loop_run_range; lia.
  - rewrite is_prime_run. unfold is_prime_result.
    decide_test (n <=? 1) false. now rewrite Hx, Hr.
Qed.

Lemma is_prime_sqrt_many_steps_witness :
  faithful_sqrt ieee_sqrt /\ 1 < 97 < 2 ^ 53 /\
  exists x r b steps,
    pow_half ieee_sqrt 97 = Return x /\ int_of_number x = Return r /\
    (steps <= Z.to_nat (Z.sqrt 97) + 1)%nat /\
    loop_run steps 97 (r + 1) (Looping 2) = Exited (Return b) /\
    is_prime ieee_sqrt 97 w0 = (Return b, w0).
Proof.
  split; [exact ieee_sqrt_faithful|]. split; [split; reflexivity|].
  apply (is_prime_sqrt_many_steps ieee_sqrt 97 w0 ieee_sqrt_faithful).
  split; reflexivity.
Defined.

(** X8: the enumeration returns exactly the prime numbers between 1 and
    100: nothing else is in the list and no prime of that range is missing. *)
Theorem primes_exactly_the_primes (pw : spec_float -> spec_float) (w : world) :
  faithful_sqrt pw ->
  exists l, primes pw w = (Return l, w) /\
            forall p, In p l <-> 1 <= p <= 100 /\ prime_number p.
Proof.
  intros Hpw. exists (filter candidate_is_prime (range 1 101)). split.
  - unfold primes. apply comprehension_if_pure.
    intros n Hn. apply in_range in Hn.
    apply is_prime_candidate; [exact Hpw|lia].
  - intros p. rewrite filter_In, in_range, candidate_is_prime_true.
    split; intros [Hr Hp]; (split; [lia|exact Hp]).
Qed.

Lemma primes_exactly_the_primes_witness :
  faithful_sqrt ieee_sqrt /\
  exists l, primes ieee_sqrt w0 = (Return l, w0) /\
            forall p, In p l <-> 1 <= p <= 100 /\ prime_number p.
Proof.
  split; [exact ieee_sqrt_faithful|].
  exact (primes_exactly_the_primes ieee_sqrt w0 ieee_sqrt_faithful).
Defined.

(** X9: below 2^53 the answer of is_prime does not depend on the platform:
    any two [pow] functions that round the square root faithfully give the
    same result. *)
Theorem is_prime_platform_independent
        (pw1 pw2 : spec_float -> spec_float) (n : Z) (w : world) :
  faithful_sqrt pw1 -> faithful_sqrt pw2 -> n < 2 ^ 53 ->
  is_prime pw1 n w = is_prime pw2 n w.
Proof.
  intros H1 H2 Hn. now rewrite !is_prime_candidate.
Qed.

Lemma is_prime_platform_independent_witness :
  faithful_sqrt ieee_sqrt /\ faithful_sqrt floor_sqrt /\
  4503599761588224 < 2 ^ 53 /\
  is_prime ieee_sqrt 4503599761588224 w0
    = is_prime floor_sqrt 4503599761588224 w0.
Proof.
  split; [exact ieee_sqrt_faithful|]. split; [exact floor_sqrt_faithful|].
  split; [reflexivity|].
  apply (is_prime_platform_independent ieee_sqrt floor_sqrt
           4503599761588224 w0 ieee_sqrt_faithful floor_sqrt_faithful).
  reflexivity.
Defined.

(** X10: whatever the platform's [pow] returns, is_prime raises neither
    ZeroDivisionError nor TypeError: the only exceptions that can leave it
    are OverflowError and ValueError, and the state is left unchanged. *)
Theorem is_prime_possible_exceptions
        (pw : spec_float -> spec_float) (n : Z) (w w' : world) (e : exn) :
  is_prime pw n w = (Raise e, w') ->
  (e = OverflowError \/ e = ValueError) /\ w' = w.
Proof.
  rewrite is_prime_run. intros H. injection H as He Hw.
  split; [|now symmetry]. unfold is_prime_result in He.
  destruct (Z.leb_spec n 1) as [Hle|Hgt]; [discriminate|].
  unfold pow_half in He.
  pose proof (float_of_int_positive_sign n) as Hsign.
  unfold float_of_int in *.
  destruct (binary_normalize prec emax n 0 false) as [s|s| |s m ex].
  - discriminate.
  - injection He as <-. now left.
  - destruct (int_of_number (PyFloat (pw S754_nan))) eqn:Hi;
      [discriminate|].
    injection He as <-. unfold int_of_number in Hi.
    destruct (pw S754_nan); try discriminate; injection Hi as <-; auto.
  - destruct s; [exfalso; now apply (Hsign m ex ltac:(lia))|].
    destruct (int_of_number (PyFloat (pw (S754_finite false m ex)))) eqn:Hi;
      [discriminate|].
    injection He as <-. unfold int_of_number in Hi.
    destruct (pw (S754_finite false m ex)); try discriminate;
      injection Hi as <-; auto.
Qed.

Lemma is_prime_possible_exceptions_witness :
  is_prime ieee_sqrt (2 ^ 1024) w0 = (Raise OverflowError, w0) /\
  (OverflowError = OverflowError \/ OverflowError = ValueError) /\ w0 = w0.
Proof.
  assert (He : is_prime ieee_sqrt (2 ^ 1024) w0 = (Raise OverflowError, w0))
    by (vm_compute; reflexivity).
  split; [exact He|].
  exact (is_prime_possible_exceptions ieee_sqrt (2 ^ 1024) w0 w0
           OverflowError He).
Defined.

(** Under faithful rounding alone the criterion cannot be promised from
    94906297^2 on.  The square root rounded toward zero is faithful, and
    with it as [pow] is_prime accepts 94906297 * 94906297: this integer is
    not a double, its conversion rounds down, and int(n ** 0.5) falls one
    short of the root.  With the correctly rounded square root the same
    call returns false. *)
Remark is_prime_accepts_composite_above_2_53 :
  faithful_sqrt floor_sqrt /\
  2 ^ 53 < 94906297 * 94906297 /\
  ~ prime_number (94906297 * 94906297) /\
  (exists x, pow_half floor_sqrt (94906297 * 94906297) = Return x /\
             int_of_number x = Return 94906296) /\
  is_prime floor_sqrt (94906297 * 94906297) w0 = (Return true, w0) /\
  is_prime ieee_sqrt (94906297 * 94906297) w0 = (Return false, w0).
Proof.
  assert (Hp : prime_number 94906297).
  { apply prime_number_trial; [reflexivity|].
    apply trial_division_true. vm_compute. reflexivity. }
  assert (Hx : pow_half floor_sqrt (94906297 * 94906297)
               = Return (PyFloat (S754_finite false 6369053778116607 (- 26))))
    by (vm_compute; reflexivity).
  assert (Hr : int_of_number
                 (PyFloat (S754_finite false 6369053778116607 (- 26)))
               = Return 94906296) by (vm_compute; reflexivity).
  assert (Hx' : pow_half ieee_sqrt (94906297 * 94906297)
                = Return (PyFloat (S754_finite false 6369053778116608 (- 26))))
    by (vm_compute; reflexivity).
  assert (Hr' : int_of_number
                  (PyFloat (S754_finite false 6369053778116608 (- 26)))
                = Return 94906297) by (vm_compute; reflexivity).
  split; [exact floor_sqrt_faithful|]. split; [reflexivity|].
  split; [|split; [|split]].
  - intros [_ Hc].
    destruct (Hc 94906297 ltac:(lia)
                (Z.divide_factor_l 94906297 94906297)); discriminate.
  - eexists. split; [exact Hx|exact Hr].
  - rewrite is_prime_run. unfold is_prime_result.
    decide_test (94906297 * 94906297 <=? 1) false.
    rewrite Hx, Hr.
    assert (Hnd : has_divisor (94906297 * 94906297) (range 2 (94906296 + 1))
                  = false).
    { apply has_divisor_false. intros i Hi. apply in_range in Hi.
      apply prime_square_no_small_divisor; [exact Hp|lia]. }
    now rewrite Hnd.
  - rewrite is_prime_run. unfold is_prime_result.
    decide_test (94906297 * 94906297 <=? 1) false.
    rewrite Hx', Hr'.
    assert (Hd : has_divisor (94906297 * 94906297) (range 2 (94906297 + 1))
                 = true).
    { apply has_divisor_true. exists 94906297.
      split; [apply in_range; lia|apply Z.mod_mul; lia]. }
    now rewrite Hd.
Qed.

(** * The square-root criterion up to the overflow threshold *)

(** ** Proth's criterion *)

Lemma divide_pow_minus_1 (d x n : Z) :
  0 <= n -> (d | x - 1) -> (d | x ^ n - 1).
Proof.
  intros Hn Hd. pattern n. apply natlike_ind; [| |exact Hn].
  - rewrite Z.pow_0_r, Z.sub_diag. apply Z.divide_0_r.
  - intros t Ht IH. rewrite Z.pow_succ_r by exact Ht.
    replace (x * x ^ t - 1) with (x * (x ^ t - 1) + (x - 1)) by ring.
    apply Z.divide_add_r; [now apply Z.divide_mul_r|exact Hd].
Qed.

Lemma divide_pow_odd_plus_1 (d x t : Z) :
  0 <= t -> (d | x + 1) -> (d | x ^ (2 * t + 1) + 1).
Proof.
  intros Ht Hd. pattern t. apply natlike_ind; [| |exact Ht].
  - now rewrite Z.mul_0_r, Z.add_0_l, Z.pow_1_r.
  - intros s Hs IH.
    replace (2 * Z.succ s + 1) with (Z.succ (Z.succ (2 * s + 1))) by lia.
    rewrite !Z.pow_succ_r by lia.
    replace (x * (x * x ^ (2 * s + 1)) + 1)
      with (x * x * (x ^ (2 * s + 1) + 1) - (x - 1) * (x + 1)) by ring.
    apply Z.divide_sub_r; [now apply Z.divide_mul_r|now apply Z.divide_mul_r].
Qed.

(** A positive integer is a multiple of [2^k] or an odd multiple of a
    smaller power of two. *)
Lemma two_adic_split (k : nat) (x : Z) :
  0 < x ->
  (2 ^ Z.of_nat k | x) \/
  exists j m, 0 <= j < Z.of_nat k /\ 0 <= m /\ x = 2 ^ j * (2 * m + 1).
Proof.
  intros Hx. induction k as [|k IH].
  - left. cbn. apply Z.divide_1_l.
  - destruct IH as [[y Hy]|(j & m & Hj & Hm & He)].
    + pose proof (Z.div_mod y 2 ltac:(lia)) as Hdm.
      pose proof (Z.mod_pos_bound y 2 ltac:(lia)) as Hb.
      pose proof (pow2_pos (Z.of_nat k) ltac:(lia)) as Hp.
      assert (Hy0 : 0 < y) by nia.
      destruct (Z.eq_dec (y mod 2) 0) as [H0|H1].
      * left. exists (y / 2). rewrite Nat2Z.inj_succ, Z.pow_succ_r by lia.
        rewrite Hy. rewrite Hdm at 1. rewrite H0. ring.
      * right. exists (Z.of_nat k), (y / 2).
        split; [lia|]. split; [apply Z.div_pos; lia|].
        rewrite Hy. rewrite Hdm at 1.
        replace (y mod 2) with 1 by lia. ring.
    + right. exists j, m. split; [lia|]. split; assumption.
Qed.

(** Proth's criterion, the part on prime factors: when
    [a ^ (h * 2^(k-1)) = -1] modulo [p = h * 2^k + 1], every prime factor of
    [p] is 1 modulo [2^k]. *)
Lemma proth_factor (h a q : Z) (k : nat) :
  0 < h -> (0 < k)%nat ->
  (h * 2 ^ Z.of_nat k + 1 | a ^ (h * 2 ^ (Z.of_nat k - 1)) + 1) ->
  Z.prime q -> (q | h * 2 ^ Z.of_nat k + 1) ->
  (2 ^ Z.of_nat k | q - 1).
Proof.
  intros Hh Hk Hpow Hq Hqp.
  set (p := h * 2 ^ Z.of_nat k + 1) in *.
  set (E := h * 2 ^ (Z.of_nat k - 1)) in *.
  pose proof (Z.prime_ge_2 q Hq) as Hq2.
  pose proof (pow2_pos (Z.of_nat k - 1) ltac:(lia)) as Hpk.
  assert (HE : 0 < E) by (subst E; nia).
  assert (Hp2E : p = 2 * E + 1).
  { subst p E. replace (Z.of_nat k) with (Z.succ (Z.of_nat k - 1)) at 1 by lia.
    rewrite Z.pow_succ_r by lia. ring. }
  assert (HqE : (q | a ^ E + 1)) by (eapply Z.divide_trans; eassumption).
  (* q is odd *)
  assert (Hq3 : 3 <= q).
  { destruct (Z.eq_dec q 2) as [->|]; [|lia].
    destruct Hqp as [c Hc]. lia. }
  (* a is not a multiple of q *)
  assert (Ha : a mod q <> 0).
  { intros H0. apply Z.mod_divide in H0; [|lia].
    assert (Hd : (q | a ^ E)).
    { replace E with (Z.succ (E - 1)) by lia.
      rewrite Z.pow_succ_r by lia. now apply Z.divide_mul_l. }
    assert (H1 : (q | 1)).
    { replace 1 with (a ^ E + 1 - a ^ E) by ring.
      now apply Z.divide_sub_r. }
    apply Z.divide_1_r in H1. lia. }
  pose proof (Zmod.ZmodInv.Z.fermat_nz q a Hq Ha) as Hf.
  assert (Hf' : (q | a ^ (q - 1) - 1)).
  { apply Z.mod_divide; [lia|].
    rewrite Zminus_mod, Hf, (Z.mod_small 1) by lia. now rewrite Z.sub_diag. }
  destruct (two_adic_split k (q - 1) ltac:(lia))
    as [Hdiv|(j & m & Hj & Hm & He)]; [exact Hdiv|exfalso].
  set (T := E * (2 * m + 1)).
  assert (HT : T = (h * 2 ^ (Z.of_nat k - 1 - j)) * (q - 1)).
  { subst T E. rewrite He.
    replace (Z.of_nat k - 1) with ((Z.of_nat k - 1 - j) + j) at 1 by lia.
    rewrite pow2_split by lia. ring. }
  assert (H1 : (q | a ^ T - 1)).
  { rewrite HT, Z.mul_comm, Z.pow_mul_r by (try apply Z.mul_nonneg_nonneg;
      try apply Z.pow_nonneg; lia).
    apply divide_pow_minus_1; [|exact Hf'].
    apply Z.mul_nonneg_nonneg; [lia|apply Z.pow_nonneg; lia]. }
  assert (H2 : (q | a ^ T + 1)).
  { subst T. rewrite Z.pow_mul_r by lia.
    now apply divide_pow_odd_plus_1. }
  assert (H3 : (q | 2)).
  { replace 2 with (a ^ T + 1 - (a ^ T - 1)) by ring.
    now apply Z.divide_sub_r. }
  apply Z.divide_pos_le in H3; lia.
Qed.

(** Every integer above 1 has a prime divisor. *)
Lemma prime_divisor_exists (n : Z) :
  1 < n -> exists q, Z.prime q /\ (q | n).
Proof.
  intros Hn. assert (H0 : 0 <= n) by lia. revert Hn.
  pattern n. apply (Z_lt_induction _); [|exact H0].
  clear n H0. intros n IH Hn.
  destruct (prime_dec n) as [Hp|Hnp].
  - exists n. split; [now apply prime_alt|apply Z.divide_refl].
  - destruct (not_prime_divide n Hn Hnp) as (d & Hd & Hdn).
    destruct (IH d ltac:(lia) ltac:(lia)) as (q & Hq & Hqd).
    exists q. split; [exact Hq|]. now apply Z.divide_trans with d.
Qed.

(** Proth's criterion: [p = h * 2^k + 1] with [h <= 2^k] is prime as soon
    as some [a] has [a ^ ((p - 1) / 2) = -1] modulo [p]. *)
Lemma proth_prime (h a : Z) (k : nat) :
  0 < h <= 2 ^ Z.of_nat k -> (0 < k)%nat ->
  (h * 2 ^ Z.of_nat k + 1 | a ^ (h * 2 ^ (Z.of_nat k - 1)) + 1) ->
  prime_number (h * 2 ^ Z.of_nat k + 1).
Proof.
  intros Hh Hk Hpow.
  pose proof (pow2_pos (Z.of_nat k) ltac:(lia)) as Hpk.
  set (K := 2 ^ Z.of_nat k) in *.
  assert (Hp1 : 1 < h * K + 1) by nia.
  split; [exact Hp1|].
  intros d Hd Hdp.
  assert (Hle : d <= h * K + 1) by (apply Z.divide_pos_le; [lia|exact Hdp]).
  destruct (Z.eq_dec d 1) as [|Hd1]; [now left|].
  destruct (Z.eq_dec d (h * K + 1)) as [|Hdn]; [now right|]. exfalso.
  destruct Hdp as [c Hc].
  assert (Hc1 : 1 < c) by nia.
  (* the smaller of the two cofactors has a prime divisor below the root *)
  assert (Hsmall : exists m, 1 < m /\ (m | h * K + 1) /\ m * m <= h * K + 1).
  { destruct (Z.le_gt_cases d c) as [Hdc|Hdc].
    - exists d. split; [lia|]. split; [now exists c|nia].
    - exists c. split; [lia|]. split; [exists d; lia|nia]. }
  destruct Hsmall as (m & Hm1 & Hmp & Hmm).
  destruct (prime_divisor_exists m Hm1) as (q & Hq & Hqm).
  assert (Hqp : (q | h * K + 1)) by now apply Z.divide_trans with m.
  pose proof (proth_factor h a q k ltac:(lia) Hk Hpow Hq Hqp) as Hdiv.
  fold K in Hdiv.
  pose proof (Z.prime_ge_2 q Hq) as Hq2.
  assert (Hqle : q <= m) by (apply Z.divide_pos_le; [lia|exact Hqm]).
  assert (HKq : K <= q - 1) by (apply Z.divide_pos_le; [lia|exact Hdiv]).
  nia.
Qed.

Lemma proth_p_prime : prime_number proth_p.
Proof.
  apply (proth_prime 5 3 55); [split; [lia|vm_compute; discriminate]|lia|].
  apply Z.mod_divide; [vm_compute; discriminate|].
  change (Z.of_nat 55) with 55. change (55 - 1) with 54.
  rewrite <- Zplus_mod_idemp_l.
  rewrite <- Zpow_mod_correct by (vm_compute; discriminate).
  vm_compute. reflexivity.
Qed.

(** ** Bounds and prime squares *)


Section FaithfulRoot.

Variable pw : spec_float -> spec_float.
Hypothesis pw_faithful : faithful_sqrt pw.


(** The square of a prime [p] is accepted whenever [p - 1] is a double and
    [p * p] converts to the float [(p - 1)^2]: the root of that float is
    exact, so the bound is [p - 1] and [p] itself is never tried. *)
Lemma prime_square_accepted (p : Z) (ma mx : positive) (ea ex : Z) (w : world) :
  prime_number p ->
  normal_ge1 ma ea -> 0 <= ea -> Zpos ma * 2 ^ ea = p - 1 ->
  float_of_int (p * p) = Return (S754_finite false mx ex) ->
  normal_ge1 mx ex -> 0 <= ex -> Zpos mx * 2 ^ ex = (p - 1) * (p - 1) ->
  is_prime pw (p * p) w = (Return true, w).
Proof.
  intros Hp Hna Hea Hva Hf Hnx Hex Hvx.
  destruct (pw_faithful mx ex Hnx) as (mr & er & Hpw & _ & Hlo & Hhi).
  pose proof (normal_ge1_bounded ma ea Hna) as Hba.
  assert (Hsq : Zpos ma * Zpos ma * 2 ^ (2 * ea) = Zpos mx * 2 ^ ex).
  { replace (2 * ea) with (ea + ea) by lia. rewrite pow2_split by lia.
    rewrite Hvx, <- Hva. ring. }
  assert (H1 : dle (Zpos ma) ea (Zpos mr) er).
  { apply Hlo; [exact Hba|]. apply (dle_scale _ _ _ _ 0); try lia.
    rewrite !Z.sub_0_r. lia. }
  assert (H2 : dle (Zpos mr) er (Zpos ma) ea).
  { apply Hhi; [exact Hba|]. apply (dle_scale _ _ _ _ 0); try lia.
    rewrite !Z.sub_0_r. lia. }
  apply shiftl_mono_dle in H1; [|lia].
  apply shiftl_mono_dle in H2; [|lia].
  rewrite (Z.shiftl_mul_pow2 (Zpos ma)) in H1, H2 by lia.
  assert (Hr : Z.shiftl (Zpos mr) er = p - 1) by lia.
  destruct Hp as [Hp1 Hpd].
  rewrite is_prime_run. unfold is_prime_result.
  decide_test (p * p <=? 1) false. unfold pow_half. rewrite Hf, Hpw.
  cbn [int_of_number cond_Zopp]. rewrite Hr.
  assert (Hnd : has_divisor (p * p) (range 2 (p - 1 + 1)) = false).
  { apply has_divisor_false. intros i Hi. apply in_range in Hi.
    apply prime_square_no_small_divisor; [split; assumption|lia]. }
  now rewrite Hnd.
Qed.

End FaithfulRoot.

Lemma proth_p_square_float :
  float_of_int (proth_p * proth_p)
  = Return (S754_finite false (25 * 2 ^ 48) 62).
Proof. vm_compute. reflexivity. Qed.


Section Criterion.

Variable pw : spec_float -> spec_float.
Hypothesis pw_faithful : faithful_sqrt pw.



End Criterion.

(** ** The criterion *)




(** X11: the square of a prime p is accepted as prime whenever p - 1 is a
    double and p * p converts to the float (p - 1)^2, on every platform
    whose [pow] rounds the square root faithfully: the root of that float
    is exactly p - 1, so int(n ** 0.5) = p - 1 and the divisor p is never
    tried. *)
Theorem is_prime_accepts_prime_square
        (pw : spec_float -> spec_float) (p : Z) (ma mx : positive)
        (ea ex : Z) (w : world) :
  faithful_sqrt pw -> prime_number p ->
  normal_ge1 ma ea -> 0 <= ea -> Zpos ma * 2 ^ ea = p - 1 ->
  float_of_int (p * p) = Return (S754_finite false mx ex) ->
  normal_ge1 mx ex -> 0 <= ex -> Zpos mx * 2 ^ ex = (p - 1) * (p - 1) ->
  is_prime pw (p * p) w = (Return true, w).
Proof.
  intros Hpw. now apply prime_square_accepted.
Qed.

Lemma is_prime_accepts_prime_square_witness :
  faithful_sqrt ieee_sqrt /\ prime_number (5 * 2 ^ 55 + 1) /\
  normal_ge1 (5 * 2 ^ 50) 5 /\ 0 <= 5 /\
  Zpos (5 * 2 ^ 50) * 2 ^ 5 = 5 * 2 ^ 55 + 1 - 1 /\
  float_of_int ((5 * 2 ^ 55 + 1) * (5 * 2 ^ 55 + 1))
    = Return (S754_finite false (25 * 2 ^ 48) 62) /\
  normal_ge1 (25 * 2 ^ 48) 62 /\ 0 <= 62 /\
  Zpos (25 * 2 ^ 48) * 2 ^ 62 = (5 * 2 ^ 55 + 1 - 1) * (5 * 2 ^ 55 + 1 - 1) /\
  is_prime ieee_sqrt ((5 * 2 ^ 55 + 1) * (5 * 2 ^ 55 + 1)) w0
    = (Return true, w0).
Proof.
  assert (Hn1 : normal_ge1 (5 * 2 ^ 50) 5)
    by (split; [reflexivity|split; discriminate]).
  assert (Hn2 : normal_ge1 (25 * 2 ^ 48) 62)
    by (split; [reflexivity|split; discriminate]).
  assert (H5 : 0 <= 5) by discriminate.
  assert (H62 : 0 <= 62) by discriminate.
  split; [exact ieee_sqrt_faithful|]. split; [exact proth_p_prime|].
  split; [exact Hn1|]. split; [exact H5|]. split; [reflexivity|].
  split; [exact proth_p_square_float|]. split; [exact Hn2|].
  split; [exact H62|]. split; [reflexivity|].
  exact (is_prime_accepts_prime_square ieee_sqrt (5 * 2 ^ 55 + 1)
           (5 * 2 ^ 50) (25 * 2 ^ 48) 5 62 w0
           ieee_sqrt_faithful proth_p_prime Hn1 H5 eq_refl
           proth_p_square_float Hn2 H62 eq_refl).
Defined.
